(** * THE-BACKROOMS: the World subsystem ([world.py])

    A shallow embedding of the [World] class: the deterministic wall, pillar
    and doorway generator with its caches, the progressive wall-damage
    store, the debris pool, the collision query and the save/load
    serializer, followed by the properties of the specification that were
    checked against it.

    Python values are rendered as follows.
    - [int] is [Z]; [float] is the kernel's binary64 [PrimFloat.float], so
      every float operation below is the IEEE-754 one that CPython performs.
    - A grid point [(x, z)] is a pair [Z * Z]; a wall key
      [tuple(sorted([(x1, z1), (x2, z2)]))] is a pair of grid points.
    - [dict] and [set] attributes are [gmap] and [gset]; a dict of the save
      document, whose keys are strings, is an association list in
      insertion order.
    - A method that mutates [self] takes the world and returns the new one;
      the module-level [random] generator is threaded explicitly and the
      events handed to [event_bus.emit] are returned as a list. *)

From Stdlib Require Import PrimFloat.
From Stdlib Require SpecFloat FloatOps FloatAxioms.
From Stdlib Require Import ZArith List Bool Ascii String Lia.
From Stdlib Require Import Numbers.DecimalString Numbers.DecimalZ Numbers.DecimalPos.
From stdpp Require Import base option list gmap sets strings.

Local Open Scope Z_scope.

(** ** Python's numbers *)

Module Py.

(** The ints of magnitude at most 2^53.  Each of them is a float exactly,
    and the sum, the difference and the half of two of them are within the
    binary64 range: on such ints no conversion and no true division that
    the code below performs raises [OverflowError]. *)
Definition float_safe (n : Z) : Prop := Z.abs n <= 9007199254740992.

(** [float(n)], the conversion CPython applies to the [int] operand of a
    mixed operation: round to nearest, ties to even.  Above the binary64
    range CPython raises [OverflowError], where this gives infinity: the
    value is the code's for an int in range, and every statement below
    that says a call returns is made for [float_safe] ints. *)
Definition float_of_int (n : Z) : float :=
  FloatOps.SF2Prim (SpecFloat.binary_normalize FloatOps.prec FloatOps.emax n 0 false).

(** The integer [n] as an unnormalised binary float [n * 2^0]. *)
Definition SF_of_int (n : Z) : SpecFloat.spec_float :=
  match n with
  | Z0 => SpecFloat.S754_zero false
  | Zpos p => SpecFloat.S754_finite false p 0
  | Zneg p => SpecFloat.S754_finite true p 0
  end.

(** [m / n] on two [int]s (true division): the exact quotient rounded
    once.  Only used with a non-zero divisor.  CPython raises
    [OverflowError] when the quotient is beyond the binary64 range, where
    this gives infinity; see [float_safe]. *)
Definition int_truediv (m n : Z) : float :=
  FloatOps.SF2Prim (SpecFloat.SFdiv FloatOps.prec FloatOps.emax (SF_of_int m) (SF_of_int n)).

(** A finite float as [m * 2^e]; [None] for infinities and NaN. *)
Definition float_parts (x : float) : option (Z * Z) :=
  match FloatOps.Prim2SF x with
  | SpecFloat.S754_zero _ => Some (0, 0)
  | SpecFloat.S754_finite s m e => Some (if s then Zneg m else Zpos m, e)
  | _ => None
  end.

(** [m * 2^e] back to a float (rounding, exact when representable). *)
Definition float_of_parts (m e : Z) : float :=
  FloatOps.SF2Prim (SpecFloat.binary_normalize FloatOps.prec FloatOps.emax m e false).

(** Three-way comparison of [m1 * 2^e1] with [m2 * 2^e2], exactly. *)
Definition parts_compare (a b : Z * Z) : comparison :=
  let e0 := Z.min (snd a) (snd b) in
  Z.compare (Z.shiftl (fst a) (snd a - e0)) (Z.shiftl (fst b) (snd b - e0)).

(** Comparison of an [int] with a [float]: CPython compares the two exact
    values, it does not convert the [int]. *)
Definition int_float_compare (n : Z) (x : float) : option comparison :=
  match float_parts x with
  | Some p => Some (parts_compare (n, 0) p)
  | None =>
      if PrimFloat.is_nan x then None
      else Some (if PrimFloat.ltb x PrimFloat.zero then Gt else Lt)
  end.

(** [n <= x], [x <= n], [n < x], [x < n] for an int [n] and a float [x]. *)
Definition int_le_float (n : Z) (x : float) : bool :=
  match int_float_compare n x with Some Gt | None => false | _ => true end.
Definition float_le_int (x : float) (n : Z) : bool :=
  match int_float_compare n x with Some Lt | None => false | _ => true end.
Definition int_lt_float (n : Z) (x : float) : bool :=
  match int_float_compare n x with Some Lt => true | _ => false end.
Definition float_lt_int (x : float) (n : Z) : bool :=
  match int_float_compare n x with Some Gt => true | _ => false end.

(** [math.fmod(x, y)] for finite [x] and finite non-zero [y]: the exact
    remainder of the truncated quotient, with the sign of [x]. *)
Definition fmod (x y : float) : float :=
  match float_parts x, float_parts y with
  | Some (mx, ex), Some (my, ey) =>
      let e0 := Z.min ex ey in
      let r := Z.rem (Z.shiftl mx (ex - e0)) (Z.shiftl my (ey - e0)) in
      if r =? 0 then (if PrimFloat.get_sign x then PrimFloat.neg_zero else PrimFloat.zero)
      else float_of_parts r e0
  | _, _ => PrimFloat.nan
  end.

(** [math.floor] as a float, for a finite argument. *)
Definition floor (x : float) : float :=
  match float_parts x with
  | Some (m, e) => if 0 <=? e then x else
      let q := Z.shiftr m (- e) in
      if q =? 0 then (if PrimFloat.get_sign x then PrimFloat.neg_zero else PrimFloat.zero)
      else float_of_int q
  | None => x
  end.

(** [x // y] on floats, as CPython's [float_floor_div] computes it (through
    [fmod], then a correction of the quotient).  [y] is non-zero. *)
Definition float_floordiv (x y : float) : float :=
  let md := fmod x y in
  let dv := PrimFloat.div (PrimFloat.sub x md) y in
  let dv :=
    if negb (PrimFloat.eqb md PrimFloat.zero)
    then (if negb (Bool.eqb (PrimFloat.ltb y PrimFloat.zero) (PrimFloat.ltb md PrimFloat.zero))
          then PrimFloat.sub dv PrimFloat.one else dv)
    else dv in
  if negb (PrimFloat.eqb dv PrimFloat.zero)
  then let fl := floor dv in
       if PrimFloat.ltb 0.5%float (PrimFloat.sub dv fl)
       then PrimFloat.add fl PrimFloat.one else fl
  else PrimFloat.mul PrimFloat.zero (PrimFloat.div x y).

(** [int(x)]: truncation toward zero.  (CPython raises on NaN and on the
    infinities, which are mapped to 0 here; no caller below passes them.) *)
Definition int_of_float (x : float) : Z :=
  match float_parts x with
  | Some (m, e) => if 0 <=? e then Z.shiftl m e else Z.quot m (Z.shiftl 1 (- e))
  | None => 0
  end.

(** [list(range(start, stop, step))] for a positive step. *)
Fixpoint range_from (n : nat) (start step : Z) : list Z :=
  match n with
  | O => []
  | S n' => start :: range_from n' (start + step) step
  end.

Definition range (start stop : Z) (step : positive) : list Z :=
  range_from (Z.to_nat ((stop - start + Z.pos step - 1) / Z.pos step)) start (Z.pos step).

End Py.

(** ** Grid keys and their string form *)

(** A grid point [(x, z)] and a wall key [((x1, z1), (x2, z2))]. *)
Definition Point : Type := Z * Z.
Definition WallKey : Type := Point * Point.

(** [a < b] on two-element int tuples: Python compares tuples
    lexicographically. *)
Definition point_ltb (a b : Point) : bool :=
  (a.1 <? b.1) || ((a.1 =? b.1) && (a.2 <? b.2)).

(** [tuple(sorted([a, b]))]: the sort is stable, so the two points are
    swapped only when [b < a]. *)
Definition sorted_pair (a b : Point) : WallKey :=
  if point_ltb b a then (b, a) else (a, b).

(** [str(n)] for an int: decimal digits, a leading [-] when negative. *)
Definition repr_int (n : Z) : string := NilZero.string_of_int (Z.to_int n).

(** [str(p)] for a tuple of two ints, e.g. ["(-400, 0)"]. *)
Definition repr_point (p : Point) : string :=
  "(" +:+ repr_int p.1 +:+ ", " +:+ repr_int p.2 +:+ ")".

(** [str(k)] for a wall key, e.g. ["((0, 0), (400, 0))"]. *)
Definition repr_wall (k : WallKey) : string :=
  "(" +:+ repr_point k.1 +:+ ", " +:+ repr_point k.2 +:+ ")".

(** A strict reader of exactly the literals [repr_point] and [repr_wall]
    write.  It is the stand-in for Python's [eval] wherever a concrete one
    is needed below: on these literals [eval] returns the same key, and the
    strings it is shown to reject are ones on which [eval] raises
    [SyntaxError]. *)
Module Literal.

Definition digit_of (c : ascii) : option (Decimal.uint -> Decimal.uint) :=
  match c with
  | "0" => Some Decimal.D0 | "1" => Some Decimal.D1 | "2" => Some Decimal.D2
  | "3" => Some Decimal.D3 | "4" => Some Decimal.D4 | "5" => Some Decimal.D5
  | "6" => Some Decimal.D6 | "7" => Some Decimal.D7 | "8" => Some Decimal.D8
  | "9" => Some Decimal.D9 | _ => None
  end%char.

(** The longest run of decimal digits at the head of [s], and what follows. *)
Fixpoint read_digits (s : string) : Decimal.uint * string :=
  match s with
  | EmptyString => (Decimal.Nil, EmptyString)
  | String c s' =>
      match digit_of c with
      | Some d => let '(u, rest) := read_digits s' in (d u, rest)
      | None => (Decimal.Nil, s)
      end
  end.

Definition read_int (s : string) : option (Z * string) :=
  match s with
  | String "-" s' =>
      match read_digits s' with
      | (Decimal.Nil, _) => None
      | (u, rest) => Some (Z.of_int (Decimal.Neg u), rest)
      end
  | _ =>
      match read_digits s with
      | (Decimal.Nil, _) => None
      | (u, rest) => Some (Z.of_int (Decimal.Pos u), rest)
      end
  end.

(** Consume the prefix [p] of [s]. *)
Fixpoint expect (p s : string) : option string :=
  match p with
  | EmptyString => Some s
  | String c p' =>
      match s with
      | String d s' => if Ascii.eqb c d then expect p' s' else None
      | EmptyString => None
      end
  end.

Definition read_point (s : string) : option (Point * string) :=
  s1 ← expect "(" s;
  '(x, s2) ← read_int s1;
  s3 ← expect ", " s2;
  '(z, s4) ← read_int s3;
  s5 ← expect ")" s4;
  Some ((x, z), s5).

Definition eval_point (s : string) : option Point :=
  match read_point s with
  | Some (p, EmptyString) => Some p
  | _ => None
  end.

Definition eval_wall (s : string) : option WallKey :=
  match (s1 ← expect "(" s;
         '(a, s2) ← read_point s1;
         s3 ← expect ", " s2;
         '(b, s4) ← read_point s3;
         s5 ← expect ")" s4;
         Some ((a, b), s5)) with
  | Some (k, EmptyString) => Some k
  | _ => None
  end.

End Literal.

(** ** Data model *)

#[local] Set Warnings "-inexact-float".

(** [class WallState(Enum)]. *)
Inductive WallState : Type := INTACT | CRACKED | FRACTURED | BREAKING | DESTROYED.

#[global] Instance WallState_eq_dec : EqDecision WallState.
Proof. solve_decision. Defined.

(** [v.name], and the lookup [WallState[v_name]] ([None]: [KeyError]). *)
Definition WallState_name (s : WallState) : string :=
  match s with
  | INTACT => "INTACT" | CRACKED => "CRACKED" | FRACTURED => "FRACTURED"
  | BREAKING => "BREAKING" | DESTROYED => "DESTROYED"
  end.

Definition WallState_of_name (n : string) : option WallState :=
  if String.eqb n "INTACT" then Some INTACT
  else if String.eqb n "CRACKED" then Some CRACKED
  else if String.eqb n "FRACTURED" then Some FRACTURED
  else if String.eqb n "BREAKING" then Some BREAKING
  else if String.eqb n "DESTROYED" then Some DESTROYED
  else None.

(** A crack record [(u, v, angle, length)]. *)
Definition Crack : Type := float * float * float * float.

Definition Color : Type := Z * Z * Z.
Definition Vec3 : Type := float * float * float.

(** The attributes of a [Debris] object that [world.py] reads or writes
    ([debris.py] itself is not part of the sources). *)
Record Debris : Type := mkDebris {
  cx : float; cy : float; cz : float;
  color : Color;
  vx : float; vy : float; vz : float;
  is_settled : bool;
  active : bool
}.

(** [d.active = False]. *)
Definition deactivate (d : Debris) : Debris :=
  mkDebris (cx d) (cy d) (cz d) (color d) (vx d) (vy d) (vz d) (is_settled d) false.

(** The entry of a zone's property dict that [world.py] reads. *)
Record ZoneProps : Type := mkZoneProps { decay_chance : float }.

(** What [event_bus.emit] receives, and [destroy_sound.play()]. *)
Inductive Event : Type :=
  | WALL_DESTROYED (wall_key : WallKey) (position : Vec3)
  | WALL_FRACTURED (wall_key : WallKey) (position : Vec3)
  | WALL_CRACKED (wall_key : WallKey) (position : Vec3)
  | SOUND_PLAYED.

(** The attributes of a [World].  [lamp_cache] and [trap_cache] are
    created empty by [__init__] and never touched again; they are left out.
    The opaque lamp and trap keys are tuples of ints. *)
Record World : Type := mkWorld {
  world_seed : Z;
  pillar_cache : gmap Point bool;
  wall_cache : gmap WallKey bool;
  zone_cache : gmap (Z * Z) ZoneProps;
  destroyed_walls : gset WallKey;
  destroyed_pillars : gset Point;
  destroyed_lamps : gset (list Z);
  triggered_traps : gset (list Z);
  pre_damaged_walls : gmap WallKey float;
  wall_states : gmap WallKey WallState;
  wall_health : gmap WallKey float;
  wall_cracks : gmap WallKey (list Crack);
  debris_pieces : list Debris;
  _spawned_rubble : gset WallKey
}.

(** [World(world_seed)] for a given seed. *)
Definition new_World (seed : Z) : World :=
  mkWorld seed ∅ ∅ ∅ ∅ ∅ ∅ ∅ ∅ ∅ ∅ ∅ [] ∅.

(** Attribute assignment [self.f = v]. *)
Definition set_world_seed (v : Z) (w : World) : World :=
  let 'mkWorld _ b c d e f g h i j k l m n := w in mkWorld v b c d e f g h i j k l m n.
Definition set_pillar_cache (v : gmap Point bool) (w : World) : World :=
  let 'mkWorld a _ c d e f g h i j k l m n := w in mkWorld a v c d e f g h i j k l m n.
Definition set_wall_cache (v : gmap WallKey bool) (w : World) : World :=
  let 'mkWorld a b _ d e f g h i j k l m n := w in mkWorld a b v d e f g h i j k l m n.
Definition set_zone_cache (v : gmap (Z * Z) ZoneProps) (w : World) : World :=
  let 'mkWorld a b c _ e f g h i j k l m n := w in mkWorld a b c v e f g h i j k l m n.
Definition set_destroyed_walls (v : gset WallKey) (w : World) : World :=
  let 'mkWorld a b c d _ f g h i j k l m n := w in mkWorld a b c d v f g h i j k l m n.
Definition set_destroyed_pillars (v : gset Point) (w : World) : World :=
  let 'mkWorld a b c d e _ g h i j k l m n := w in mkWorld a b c d e v g h i j k l m n.
Definition set_destroyed_lamps (v : gset (list Z)) (w : World) : World :=
  let 'mkWorld a b c d e f _ h i j k l m n := w in mkWorld a b c d e f v h i j k l m n.
Definition set_triggered_traps (v : gset (list Z)) (w : World) : World :=
  let 'mkWorld a b c d e f g _ i j k l m n := w in mkWorld a b c d e f g v i j k l m n.
Definition set_pre_damaged_walls (v : gmap WallKey float) (w : World) : World :=
  let 'mkWorld a b c d e f g h _ j k l m n := w in mkWorld a b c d e f g h v j k l m n.
Definition set_wall_states (v : gmap WallKey WallState) (w : World) : World :=
  let 'mkWorld a b c d e f g h i _ k l m n := w in mkWorld a b c d e f g h i v k l m n.
Definition set_wall_health (v : gmap WallKey float) (w : World) : World :=
  let 'mkWorld a b c d e f g h i j _ l m n := w in mkWorld a b c d e f g h i j v l m n.
Definition set_wall_cracks (v : gmap WallKey (list Crack)) (w : World) : World :=
  let 'mkWorld a b c d e f g h i j k _ m n := w in mkWorld a b c d e f g h i j k v m n.
Definition set_debris_pieces (v : list Debris) (w : World) : World :=
  let 'mkWorld a b c d e f g h i j k l _ n := w in mkWorld a b c d e f g h i j k l v n.

(** One entry of the [debris_pieces] list of a save document, with the
    keys that [get_state_for_save] writes (['is_settled'] may be absent:
    it is read with a default).  An entry that lacks one of the other keys
    is not a [DebrisDict]: on it [load_state] raises [KeyError] inside its
    debris loop, after the pre-damage map and the debris pool have been
    replaced. *)
Record DebrisDict : Type := mkDebrisDict {
  d_cx : float; d_cy : float; d_cz : float;
  d_color : Color;
  d_vx : float; d_vy : float; d_vz : float;
  d_is_settled : option bool
}.

(** The save document.  A field is [None] when the key is absent
    ([data.get(key, default)] then takes the default).  The dicts keyed by
    stringified grid keys are lists of (key string, value) in the order the
    dict yields them. *)
Record SaveDoc : Type := mkSaveDoc {
  doc_seed : option Z;
  doc_wall_cache : option (list (string * bool));
  doc_pillar_cache : option (list (string * bool));
  doc_destroyed_walls : option (list WallKey);
  doc_destroyed_pillars : option (list Point);
  doc_destroyed_lamps : option (list (list Z));
  doc_triggered_traps : option (list (list Z));
  doc_wall_states : option (list (string * string));
  doc_wall_health : option (list (string * float));
  doc_wall_cracks : option (list (string * list Crack));
  doc_pre_damaged_walls : option (list (string * float));
  doc_debris_pieces : option (list DebrisDict)
}.

(** How a call of [load_state] ends: it returns, or an exception leaves
    it; either way with the world as mutated so far.  The exceptions of
    a [SaveDoc] are those of [eval] on a key string and of [WallState[...]]
    on a state name. *)
Inductive Outcome : Type :=
  | Returned (w : World)
  | Raised (w : World).

(** ** The collaborators that are not part of the sources *)

(** The constants and functions imported from [config.py].
    [PILLAR_SPACING] is the step of a [range] and [ZONE_SIZE] a divisor,
    both positive; the widths are integers like the literal [60] that the
    collision code uses beside [HALLWAY_WIDTH]. *)
Record Config : Type := mkConfig {
  PILLAR_SPACING : positive;
  PILLAR_SIZE : Z;
  PILLAR_MODE : string;
  WALL_THICKNESS : Z;
  ZONE_SIZE : positive;
  HALLWAY_WIDTH : Z;
  WALL_COLOR : Color;
  PILLAR_COLOR : Color;
  get_scaled_wall_height : float;
  get_scaled_floor_y : float
}.

(** The Python runtime and the modules [procedural] and [debris]:
    - [py_hash]: [hash] of a tuple of three ints;
    - [Rng], [Random], [rng_random], [rng_randbelow]: a [random.Random]
      generator state, its construction from a seed, [random()] and the
      draw below [n] that [randint] is built on;
    - [py_eval_point], [py_eval_wall]: [eval] of a key string when the
      result is a point, respectively a wall key; [None] when [eval]
      raises.  (A document whose key strings evaluate to values of another
      shape is outside the typed maps of [World].)
    - [zone_properties]: [ProceduralZone.get_zone_properties];
    - [Debris_init], [Debris_update]: the constructor
      [Debris(position, color, velocity=...)] and the method
      [update(dt, floor_y)]. *)
Record Runtime : Type := mkRuntime {
  py_hash : Z * Z * Z -> Z;
  Rng : Type;
  Random : Z -> Rng;
  rng_random : Rng -> float * Rng;
  rng_randbelow : Rng -> Z -> Z * Rng;
  py_eval_point : string -> option Point;
  py_eval_wall : string -> option WallKey;
  zone_properties : Z -> Z -> Z -> ZoneProps;
  Debris_init : Vec3 -> Color -> option Vec3 -> Debris;
  Debris_update : Debris -> float -> float -> Debris
}.

(** ** The methods of [World] *)

Section WorldMethods.

Context (cfg : Config) (rt : Runtime).

Let spacing : Z := Z.pos (PILLAR_SPACING cfg).

(** [rng.uniform(a, b)] is [a + (b - a) * rng.random()], here on floats
    and on ints (the int operands are converted by the float product and
    sum). *)
Definition uniform (a b : float) (g : Rng rt) : float * Rng rt :=
  let '(r, g') := rng_random rt g in ((a + (b - a) * r)%float, g').

Definition uniform_int (a b : Z) (g : Rng rt) : float * Rng rt :=
  let '(r, g') := rng_random rt g in
  ((Py.float_of_int a + Py.float_of_int (b - a) * r)%float, g').

(** [rng.randint(a, b)] is [a + rng._randbelow(b - a + 1)]. *)
Definition randint (a b : Z) (g : Rng rt) : Z * Rng rt :=
  let '(n, g') := rng_randbelow rt g (b - a + 1) in (a + n, g').

(** *** Zone system *)

Definition get_zone_at (x z : float) : Z * Z :=
  let zone_x := Py.int_of_float (Py.float_floordiv x (Py.float_of_int (Z.pos (ZONE_SIZE cfg)))) in
  let zone_z := Py.int_of_float (Py.float_floordiv z (Py.float_of_int (Z.pos (ZONE_SIZE cfg)))) in
  (zone_x, zone_z).

Definition get_zone_properties (self : World) (zone_x zone_z : Z) : ZoneProps * World :=
  let key := (zone_x, zone_z) in
  match zone_cache self !! key with
  | Some props => (props, self)
  | None =>
      let props := zone_properties rt zone_x zone_z (world_seed self) in
      (props, set_zone_cache (<[key := props]> (zone_cache self)) self)
  end.

(** *** Pillar queries *)

Definition pillar_probability (mode : string) : float :=
  if String.eqb mode "sparse" then 0.10%float
  else if String.eqb mode "normal" then 0.30%float
  else if String.eqb mode "dense" then 0.60%float
  else 0.0%float.

Definition has_pillar_at (self : World) (px pz : Z) : bool * World :=
  let key := (px, pz) in
  let cache (b : bool) := (b, set_pillar_cache (<[key := b]> (pillar_cache self)) self) in
  match pillar_cache self !! key with
  | Some b => (b, self)
  | None =>
      if String.eqb (PILLAR_MODE cfg) "none" then cache false
      else
        let offset := spacing / 2 in
        let is_on_pillar_grid :=
          (px mod spacing =? offset) && (pz mod spacing =? offset) in
        if negb is_on_pillar_grid then cache false
        else if String.eqb (PILLAR_MODE cfg) "all" then cache true
        else
          let seed := py_hash rt (px, pz, world_seed self) mod 100000 in
          let rng := Random rt seed in
          let probability := pillar_probability (PILLAR_MODE cfg) in
          let has_pillar := (fst (rng_random rt rng) <? probability)%float in
          cache has_pillar
  end.

Definition is_pillar_destroyed (self : World) (pillar_key : Point) : bool :=
  bool_decide (pillar_key ∈ destroyed_pillars self).

(** *** Wall queries *)

(** The pre-damage roll of [has_wall_between], made for a key without an
    entry in [pre_damaged_walls]. *)
Definition roll_pre_damage (self : World) (key : WallKey) (x1 z1 x2 z2 : Z) : World :=
  let zone := get_zone_at (Py.int_truediv (x1 + x2) 2) (Py.int_truediv (z1 + z2) 2) in
  let '(props, self) := get_zone_properties self zone.1 zone.2 in
  let decay_seed :=
    x1 * 7919 + z1 * 6577 + x2 * 4993 + z2 * 3571 + world_seed self * 9973 in
  let rng := Random rt decay_seed in
  let '(r, rng) := rng_random rt rng in
  if (r <? decay_chance props)%float then
    let damage := fst (uniform 0.0 0.5 rng) in
    let self := set_pre_damaged_walls (<[key := damage]> (pre_damaged_walls self)) self in
    if (damage <? 0.2)%float
    then set_destroyed_walls ({[key]} ∪ destroyed_walls self) self
    else self
  else self.

Definition has_wall_between (self : World) (x1 z1 x2 z2 : Z) : bool * World :=
  let key := sorted_pair (x1, z1) (x2, z2) in
  match wall_cache self !! key with
  | Some b => (b, self)
  | None =>
      let is_horizontal := z1 =? z2 in
      let is_vertical := x1 =? x2 in
      if negb (is_horizontal || is_vertical)
      then (false, set_wall_cache (<[key := false]> (wall_cache self)) self)
      else
        let self :=
          match pre_damaged_walls self !! key with
          | Some _ => self
          | None => roll_pre_damage self key x1 z1 x2 z2
          end in
        let has_wall := true in
        (has_wall, set_wall_cache (<[key := has_wall]> (wall_cache self)) self)
  end.

Definition is_wall_destroyed (self : World) (wall_key : WallKey) : bool :=
  bool_decide (wall_key ∈ destroyed_walls self).

Definition get_wall_damage (self : World) (wall_key : WallKey) : float :=
  default 1.0%float (pre_damaged_walls self !! wall_key).

(** Returns ["hallway"], ["doorway"] or [None]. *)
Definition get_doorway_type (self : World) (x1 z1 x2 z2 : Z) : option string :=
  let is_horizontal := z1 =? z2 in
  let door_seed :=
    if is_horizontal
    then z1 * 3571 + ((x1 + x2) / 2) * 2897 + world_seed self * 9973
    else x1 * 3571 + ((z1 + z2) / 2) * 2897 + world_seed self * 9973 in
  let rng := Random rt door_seed in
  let roll := fst (rng_random rt rng) in
  if (roll <? 0.3)%float then Some "hallway"
  else if (roll <? 0.5)%float then Some "doorway"
  else None.

(** *** Progressive wall damage *)

Definition get_wall_state (self : World) (wall_key : WallKey) : WallState :=
  if bool_decide (wall_key ∈ destroyed_walls self) then DESTROYED
  else default INTACT (wall_states self !! wall_key).

Definition get_wall_health (self : World) (wall_key : WallKey) : float :=
  if bool_decide (wall_key ∈ destroyed_walls self) then 0.0%float
  else default 1.0%float (wall_health self !! wall_key).

Definition get_wall_cracks (self : World) (wall_key : WallKey) : list Crack :=
  default [] (wall_cracks self !! wall_key).

Definition _get_wall_center (wall_key : WallKey) : Vec3 :=
  let '((x1, z1), (x2, z2)) := wall_key in
  let h := get_scaled_wall_height cfg in
  let floor_y := get_scaled_floor_y cfg in
  (Py.int_truediv (x1 + x2) 2, ((floor_y + h) / 2)%float, Py.int_truediv (z1 + z2) 2).

(** [math.pi]. *)
Definition math_pi : float := 0x1.921fb54442d18p+1%float.

(** [_add_crack(wall_key, hit_u, hit_v)]; the draws come from the
    module-level generator [g]. *)
Definition _add_crack (self : World) (g : Rng rt) (wall_key : WallKey)
    (hit_u hit_v : option float) : World * Rng rt :=
  let cracks := default [] (wall_cracks self !! wall_key) in
  let '(u, g) := match hit_u with Some u => (u, g) | None => uniform 0.1 0.9 g end in
  let '(v, g) := match hit_v with Some v => (v, g) | None => uniform 0.1 0.9 g end in
  let '(angle, g) := uniform 0 math_pi g in
  let '(length, g) := uniform 0.1 0.4 g in
  (set_wall_cracks (<[wall_key := cracks ++ [(u, v, angle, length)]]> (wall_cracks self)) self, g).

(** One particle of [spawn_wall_debris]. *)
Definition wall_debris_particle (wall_key : WallKey) (g : Rng rt) : Debris * Rng rt :=
  let '((x1, z1), (x2, z2)) := wall_key in
  let h := get_scaled_wall_height cfg in
  let floor_y := get_scaled_floor_y cfg in
  let cx := Py.int_truediv (x1 + x2) 2 in
  let cz := Py.int_truediv (z1 + z2) 2 in
  let '(offset_x, g) := uniform (Py.int_truediv (- spacing) 2) (Py.int_truediv spacing 2) g in
  let '(offset_z, g) := uniform_int (- WALL_THICKNESS cfg) (WALL_THICKNESS cfg) g in
  let '(py, g) := uniform floor_y h g in
  let '(vx, g) := uniform_int (-10) 10 g in
  let '(vy, g) := uniform_int (-5) 5 g in
  let '(vz, g) := uniform_int (-10) 10 g in
  let '(color_var, g) := randint (-40) 20 g in
  let '(r0, g0, b0) := WALL_COLOR cfg in
  let particle_color :=
    (Z.max 0 (Z.min 255 (r0 + color_var)),
     Z.max 0 (Z.min 255 (g0 + color_var)),
     Z.max 0 (Z.min 255 (b0 + color_var))) in
  let '(px, pz) :=
    if x1 =? x2 then ((cx + offset_z)%float, (cz + offset_x)%float)
    else ((cx + offset_x)%float, (cz + offset_z)%float) in
  (Debris_init rt (px, py, pz) particle_color (Some (vx, vy, vz)), g).

(** [for _ in range(n)]: append [n] particles. *)
Fixpoint spawn_particles (n : nat) (wall_key : WallKey) (pieces : list Debris)
    (g : Rng rt) : list Debris * Rng rt :=
  match n with
  | O => (pieces, g)
  | S n' =>
      let '(d, g) := wall_debris_particle wall_key g in
      spawn_particles n' wall_key (pieces ++ [d]) g
  end.

Definition spawn_wall_debris (self : World) (g : Rng rt) (wall_key : WallKey)
    : World * Rng rt :=
  let '(pieces, g) := spawn_particles 150 wall_key (debris_pieces self) g in
  (set_debris_pieces pieces self, g).

(** [hit_wall(wall_key, damage)]: the returned flag, the new world, the
    module-level generator and the events emitted.  [None] is the
    [KeyError] of [self.wall_states[wall_key]] when a wall has a health
    entry but no state entry; [and] evaluates it only after the health
    test succeeded. *)
Definition hit_wall (self : World) (g : Rng rt) (wall_key : WallKey) (damage : float)
    : option (bool * World * Rng rt * list Event) :=
  if bool_decide (wall_key ∈ destroyed_walls self) then Some (false, self, g, [])
  else
    let self :=
      match wall_health self !! wall_key with
      | Some _ => self
      | None =>
          set_wall_states (<[wall_key := INTACT]> (wall_states self))
            (set_wall_health (<[wall_key := 1.0%float]> (wall_health self)) self)
      end in
    let health := (default 1.0 (wall_health self !! wall_key) - damage)%float in
    let self := set_wall_health (<[wall_key := health]> (wall_health self)) self in
    let position := _get_wall_center wall_key in
    let cracked :=
      if (health <=? 0.66)%float then
        state ← wall_states self !! wall_key;
        if bool_decide (state = INTACT) then
          let self := set_wall_states (<[wall_key := CRACKED]> (wall_states self)) self in
          let '(self, g) := _add_crack self g wall_key None None in
          Some (false, self, g, [WALL_CRACKED wall_key position])
        else Some (false, self, g, [])
      else Some (false, self, g, []) in
    if (health <=? 0.0)%float then
      let self := set_destroyed_walls ({[wall_key]} ∪ destroyed_walls self) self in
      let self := set_wall_states (<[wall_key := DESTROYED]> (wall_states self)) self in
      let '(self, g) := spawn_wall_debris self g wall_key in
      Some (true, self, g, [WALL_DESTROYED wall_key position])
    else if (health <=? 0.33)%float then
      state ← wall_states self !! wall_key;
      if negb (bool_decide (state = FRACTURED)) then
        let self := set_wall_states (<[wall_key := FRACTURED]> (wall_states self)) self in
        let '(self, g) := _add_crack self g wall_key None None in
        let '(self, g) := _add_crack self g wall_key None None in
        Some (false, self, g, [WALL_FRACTURED wall_key position])
      else cracked
    else cracked.

(** [destroy_wall(wall_key, destroy_sound)]; [destroy_sound] is whether a
    sound object was passed. *)
Definition destroy_wall (self : World) (g : Rng rt) (wall_key : WallKey)
    (destroy_sound : bool) : World * Rng rt * list Event :=
  if bool_decide (wall_key ∈ destroyed_walls self) then (self, g, [])
  else
    let self := set_destroyed_walls ({[wall_key]} ∪ destroyed_walls self) self in
    let self := set_wall_states (<[wall_key := DESTROYED]> (wall_states self)) self in
    let self := set_wall_health (<[wall_key := 0.0%float]> (wall_health self)) self in
    let position := _get_wall_center wall_key in
    let '(self, g) := spawn_wall_debris self g wall_key in
    (self, g, WALL_DESTROYED wall_key position :: (if destroy_sound then [SOUND_PLAYED] else [])).

(** *** Debris update *)

Definition MAX_DEBRIS : nat := Z.to_nat 12000.
Definition DEBRIS_CULL_DIST : float := 900.0%float.

(** The body of the loop of [update_debris] for one particle: its own
    update, then the distance cull when it is still active. *)
Definition update_particle (dt player_x player_z : float) (d : Debris) : Debris :=
  let d := Debris_update rt d dt (get_scaled_floor_y cfg) in
  if negb (active d) then d
  else
    let dx := (cx d - player_x)%float in
    let dz := (cz d - player_z)%float in
    if (DEBRIS_CULL_DIST * DEBRIS_CULL_DIST <? dx * dx + dz * dz)%float
    then deactivate d else d.

Definition update_debris (self : World) (dt player_x player_z : float) : World :=
  let pieces := update_particle dt player_x player_z <$> debris_pieces self in
  let pieces := List.filter active pieces in
  let pieces :=
    if (MAX_DEBRIS <? length pieces)%nat
    then drop (length pieces - MAX_DEBRIS) pieces
    else pieces in
  set_debris_pieces pieces self.

(** *** Collision queries *)

Definition player_radius : float := 15.0%float.

(** [opening_width] from the doorway classification. *)
Definition opening_width_of (opening_type : option string) : Z :=
  match opening_type with
  | Some t =>
      if String.eqb t "hallway" then HALLWAY_WIDTH cfg
      else if String.eqb t "doorway" then 60
      else 0
  | None => 0
  end.

(** The solid test of one wall.  [check_collision] spells it out twice, for
    the horizontal wall (with [along = x], [across = z]) and for the
    vertical one (with [along = z], [across = x]); the wall runs from
    [wall_start] to [wall_start + PILLAR_SPACING] at the coordinate
    [wall_pos]. *)
Definition wall_blocks (opening_width wall_start wall_pos : Z) (along across : float)
    : bool :=
  let half_thick := Py.int_truediv (WALL_THICKNESS cfg) 2 in
  let wall_end := wall_start + spacing in
  let near :=
    (abs (across - Py.float_of_int wall_pos) <? half_thick + player_radius)%float in
  if 0 <? opening_width then
    let opening_start :=
      (Py.float_of_int wall_start + Py.int_truediv (spacing - opening_width) 2)%float in
    let opening_end := (opening_start + Py.float_of_int opening_width)%float in
    near &&
    ((Py.int_le_float wall_start along && (along <=? opening_start - player_radius)%float)
     || ((opening_end + player_radius <=? along)%float && Py.float_le_int along wall_end))
  else
    ((Py.float_of_int wall_start - player_radius <=? along)%float
     && (along <=? Py.float_of_int wall_end + player_radius)%float)
    && near.

(** [max(lo, min(x, hi))] on the ints [lo], [hi] and the float [x], as the
    float it becomes in the subtraction that follows. *)
Definition closest_in (lo hi : Z) (x : float) : float :=
  if Py.int_lt_float hi x then Py.float_of_int (if lo <? hi then hi else lo)
  else if Py.int_lt_float lo x then x
  else Py.float_of_int lo.

Definition pillar_blocks (pillar_x pillar_z : Z) (x z : float) : bool :=
  let closest_x := closest_in pillar_x (pillar_x + PILLAR_SIZE cfg) x in
  let closest_z := closest_in pillar_z (pillar_z + PILLAR_SIZE cfg) z in
  let dist_x := (x - closest_x)%float in
  let dist_z := (z - closest_z)%float in
  let dist_sq := (dist_x * dist_x + dist_z * dist_z)%float in
  (dist_sq <? player_radius * player_radius)%float.

(** How the check of one wall leaves the body of the loop. *)
Inductive Flow : Type := ReturnTrue | Continue | FallThrough.

Definition check_wall (self : World) (x1 z1 x2 z2 : Z) (along across : float)
    (wall_start wall_pos : Z) : Flow * World :=
  let '(has_wall, self) := has_wall_between self x1 z1 x2 z2 in
  if has_wall then
    let wall_key := sorted_pair (x1, z1) (x2, z2) in
    if bool_decide (wall_key ∈ destroyed_walls self) then (Continue, self)
    else
      let opening_type := get_doorway_type self x1 z1 x2 z2 in
      if wall_blocks (opening_width_of opening_type) wall_start wall_pos along across
      then (ReturnTrue, self) else (FallThrough, self)
  else (FallThrough, self).

(** The body of the two nested loops for the cell at
    [(px_grid, pz_grid)]; [true] is [return True]. *)
Definition check_cell (self : World) (x z : float) (px_grid pz_grid : Z) : bool * World :=
  match check_wall self px_grid pz_grid (px_grid + spacing) pz_grid x z px_grid pz_grid with
  | (ReturnTrue, self) => (true, self)
  | (Continue, self) => (false, self)
  | (FallThrough, self) =>
      match check_wall self px_grid pz_grid px_grid (pz_grid + spacing) z x pz_grid px_grid with
      | (ReturnTrue, self) => (true, self)
      | (Continue, self) => (false, self)
      | (FallThrough, self) =>
          let offset := spacing / 2 in
          let pillar_x := px_grid + offset in
          let pillar_z := pz_grid + offset in
          let pillar_key := (pillar_x, pillar_z) in
          let '(has_pillar, self) := has_pillar_at self pillar_x pillar_z in
          if has_pillar && negb (bool_decide (pillar_key ∈ destroyed_pillars self))
          then (pillar_blocks pillar_x pillar_z x z, self)
          else (false, self)
      end
  end.

(** [for pz_grid in range(...)], left at the first [return True]. *)
Fixpoint scan_z (self : World) (x z : float) (px_grid : Z) (zs : list Z) : bool * World :=
  match zs with
  | [] => (false, self)
  | pz_grid :: zs' =>
      let '(hit, self) := check_cell self x z px_grid pz_grid in
      if hit then (true, self) else scan_z self x z px_grid zs'
  end.

Fixpoint scan_x (self : World) (x z : float) (xs zs : list Z) : bool * World :=
  match xs with
  | [] => (false, self)
  | px_grid :: xs' =>
      let '(hit, self) := scan_z self x z px_grid zs in
      if hit then (true, self) else scan_x self x z xs' zs
  end.

(** The first and last lattice coordinate scanned around [x]. *)
Definition grid_bounds (x : float) : Z * Z :=
  let check_range := spacing * 2 in
  let fspacing := Py.float_of_int spacing in
  (Py.int_of_float (Py.float_floordiv (x - Py.float_of_int check_range) fspacing) * spacing,
   Py.int_of_float (Py.float_floordiv (x + Py.float_of_int check_range) fspacing) * spacing).

Definition check_collision (self : World) (x z : float) : bool * World :=
  if negb (is_finite x) || negb (is_finite z) then (true, self)
  else
    let '(min_grid_x, max_grid_x) := grid_bounds x in
    let '(min_grid_z, max_grid_z) := grid_bounds z in
    scan_x self x z
      (Py.range min_grid_x (max_grid_x + spacing) (PILLAR_SPACING cfg))
      (Py.range min_grid_z (max_grid_z + spacing) (PILLAR_SPACING cfg)).

(** *** Save and load *)

Definition debris_dict (d : Debris) : DebrisDict :=
  mkDebrisDict (cx d) (cy d) (cz d) (color d) (vx d) (vy d) (vz d) (Some (is_settled d)).

(** [{str(k): f(v) for k, v in d.items()}]. *)
Definition str_items {K A B} `{Countable K} (str : K -> string) (f : A -> B)
    (d : gmap K A) : list (string * B) :=
  (λ kv, (str kv.1, f kv.2)) <$> map_to_list d.

Definition get_state_for_save (self : World) : SaveDoc :=
  {| doc_seed := Some (world_seed self);
     doc_wall_cache := Some (str_items repr_wall id (wall_cache self));
     doc_pillar_cache := Some (str_items repr_point id (pillar_cache self));
     doc_destroyed_walls := Some (elements (destroyed_walls self));
     doc_destroyed_pillars := Some (elements (destroyed_pillars self));
     doc_destroyed_lamps := Some (elements (destroyed_lamps self));
     doc_triggered_traps := Some (elements (triggered_traps self));
     doc_wall_states := Some (str_items repr_wall WallState_name (wall_states self));
     doc_wall_health := Some (str_items repr_wall id (wall_health self));
     doc_wall_cracks := Some (str_items repr_wall id (wall_cracks self));
     doc_pre_damaged_walls := Some (str_items repr_wall id (pre_damaged_walls self));
     doc_debris_pieces :=
       Some (take 1000 (debris_dict <$> List.filter active (debris_pieces self))) |}.

(** The loops and dict comprehensions of [load_state] over the items of a
    document dict: each key string goes through [eval], each value through
    [conv]; the first that raises ends the run.  The result is the dict
    filled so far and whether the run completed. *)
Fixpoint eval_entries {K A B} `{Countable K} (ev : string -> option K)
    (conv : A -> option B) (items : list (string * A)) (acc : gmap K B)
    : gmap K B * bool :=
  match items with
  | [] => (acc, true)
  | (k_str, v) :: rest =>
      match ev k_str with
      | None => (acc, false)
      | Some key =>
          match conv v with
          | None => (acc, false)
          | Some v' => eval_entries ev conv rest (<[key := v']> acc)
          end
      end
  end.

Definition load_debris (d_dict : DebrisDict) : Debris :=
  let velocity :=
    if negb (default false (d_is_settled d_dict))
    then Some (d_vx d_dict, d_vy d_dict, d_vz d_dict) else None in
  Debris_init rt (d_cx d_dict, d_cy d_dict, d_cz d_dict) (d_color d_dict) velocity.

Definition load_state (self : World) (data : SaveDoc) : Outcome :=
  let self := set_world_seed (default (world_seed self) (doc_seed data)) self in
  (* the two loops fill a dict that is already assigned *)
  let '(d, ok) := eval_entries (py_eval_wall rt) Some (default [] (doc_wall_cache data)) ∅ in
  let self := set_wall_cache d self in
  if negb ok then Raised self else
  let '(d, ok) := eval_entries (py_eval_point rt) Some (default [] (doc_pillar_cache data)) ∅ in
  let self := set_pillar_cache d self in
  if negb ok then Raised self else
  let self := set_destroyed_walls (list_to_set (default [] (doc_destroyed_walls data))) self in
  let self := set_destroyed_pillars (list_to_set (default [] (doc_destroyed_pillars data))) self in
  let self := set_destroyed_lamps (list_to_set (default [] (doc_destroyed_lamps data))) self in
  let self := set_triggered_traps (list_to_set (default [] (doc_triggered_traps data))) self in
  let '(d, ok) :=
    eval_entries (py_eval_wall rt) WallState_of_name (default [] (doc_wall_states data)) ∅ in
  let self := set_wall_states d self in
  if negb ok then Raised self else
  (* the three comprehensions are assigned only once complete *)
  let '(d, ok) := eval_entries (py_eval_wall rt) Some (default [] (doc_wall_health data)) ∅ in
  if negb ok then Raised self else
  let self := set_wall_health d self in
  let '(d, ok) := eval_entries (py_eval_wall rt) Some (default [] (doc_wall_cracks data)) ∅ in
  if negb ok then Raised self else
  let self := set_wall_cracks d self in
  let '(d, ok) :=
    eval_entries (py_eval_wall rt) Some (default [] (doc_pre_damaged_walls data)) ∅ in
  if negb ok then Raised self else
  let self := set_pre_damaged_walls d self in
  let self := set_debris_pieces (load_debris <$> default [] (doc_debris_pieces data)) self in
  Returned (set_zone_cache ∅ self).

End WorldMethods.

(** ** Pillar destruction and rubble piles *)

(** What [destroy_pillar] hands to [event_bus.emit], and its
    [destroy_sound.play()]. *)
Inductive PillarEvent : Type :=
  | PILLAR_DESTROYED (pillar_key : Point) (position : Vec3)
  | PILLAR_SOUND_PLAYED.

Definition set_spawned_rubble (v : gset WallKey) (w : World) : World :=
  let 'mkWorld a b c d e f g h i j k l m _ := w in mkWorld a b c d e f g h i j k l m v.

Section PillarsAndRubble.

Context (cfg : Config) (rt : Runtime).

(** [x ** y] on floats is the C library's [pow], whose last bit differs
    between platforms.  (CPython raises [OverflowError] when it overflows
    and [math.sqrt] raises on a negative argument; the sum of two squares
    handed to [math.sqrt] below is not negative, and [math.sqrt] itself is
    the IEEE-754 square root.) *)
Context (float_pow : float -> float -> float).

(** [for _ in range(n)]: append [n] particles, each made by [make] from the
    module-level generator. *)
Fixpoint append_particles (make : Rng rt -> Debris * Rng rt) (n : nat)
    (pieces : list Debris) (g : Rng rt) : list Debris * Rng rt :=
  match n with
  | O => (pieces, g)
  | S n' =>
      let '(d, g) := make g in
      append_particles make n' (pieces ++ [d]) g
  end.

(** One particle of [destroy_pillar].  The offsets only steer the
    velocity: the particle itself is created at [(px, py, pz)], the ints
    [px] and [pz] of the key being the value they have as floats. *)
Definition pillar_debris_particle (pillar_key : Point) (g : Rng rt) : Debris * Rng rt :=
  let '(px, pz) := pillar_key in
  let h := get_scaled_wall_height cfg in
  let floor_y := get_scaled_floor_y cfg in
  let half := Py.int_truediv (PILLAR_SIZE cfg) 2 in
  let '(offset_x, g) := uniform_int rt 0 (PILLAR_SIZE cfg) g in
  let '(offset_z, g) := uniform_int rt 0 (PILLAR_SIZE cfg) g in
  let '(py, g) := uniform rt floor_y h g in
  let dx := (Py.float_of_int px + half - (Py.float_of_int px + offset_x))%float in
  let dz := (Py.float_of_int pz + half - (Py.float_of_int pz + offset_z))%float in
  let dist := (sqrt (float_pow dx 2 + float_pow dz 2) + 0.1)%float in
  let '(speed, g) := uniform_int rt 8 20 g in
  let '(jitter_x, g) := uniform_int rt (-3) 3 g in
  let vx := (dx / dist * speed + jitter_x)%float in
  let '(vy, g) := uniform_int rt (-20) (-5) g in
  let '(jitter_z, g) := uniform_int rt (-3) 3 g in
  let vz := (dz / dist * speed + jitter_z)%float in
  let '(color_var, g) := randint rt (-30) 30 g in
  let '(r0, g0, b0) := PILLAR_COLOR cfg in
  let particle_color :=
    (Z.max 0 (Z.min 255 (r0 + color_var)),
     Z.max 0 (Z.min 255 (g0 + color_var)),
     Z.max 0 (Z.min 255 (b0 + color_var))) in
  (Debris_init rt (Py.float_of_int px, py, Py.float_of_int pz) particle_color
     (Some (vx, vy, vz)), g).

(** [destroy_pillar(pillar_key, destroy_sound)]; [destroy_sound] is
    whether a sound object was passed. *)
Definition destroy_pillar (self : World) (g : Rng rt) (pillar_key : Point)
    (destroy_sound : bool) : World * Rng rt * list PillarEvent :=
  if bool_decide (pillar_key ∈ destroyed_pillars self) then (self, g, [])
  else
    let self := set_destroyed_pillars ({[pillar_key]} ∪ destroyed_pillars self) self in
    let '(px, pz) := pillar_key in
    let h := get_scaled_wall_height cfg in
    let floor_y := get_scaled_floor_y cfg in
    let half := Py.int_truediv (PILLAR_SIZE cfg) 2 in
    let position :=
      ((Py.float_of_int px + half)%float, ((floor_y + h) / 2)%float,
       (Py.float_of_int pz + half)%float) in
    let '(pieces, g) :=
      append_particles (pillar_debris_particle pillar_key) 200 (debris_pieces self) g in
    let self := set_debris_pieces pieces self in
    (self, g,
     PILLAR_DESTROYED pillar_key position
       :: (if destroy_sound then [PILLAR_SOUND_PLAYED] else [])).

(** One particle of [spawn_rubble_pile]: settled from the start
    ([velocity=None]), at floor level. *)
Definition rubble_particle (x1 z1 x2 z2 : Z) (g : Rng rt) : Debris * Rng rt :=
  let floor_y := get_scaled_floor_y cfg in
  let half_thick := Py.int_truediv (WALL_THICKNESS cfg) 2 in
  let '(px, g) :=
    if x1 =? x2
    then uniform rt (Py.float_of_int x1 - half_thick) (Py.float_of_int x1 + half_thick) g
    else uniform_int rt (Z.min x1 x2) (Z.max x1 x2) g in
  let '(pz, g) :=
    if x1 =? x2
    then uniform_int rt (Z.min z1 z2) (Z.max z1 z2) g
    else uniform rt (Py.float_of_int z1 - half_thick) (Py.float_of_int z1 + half_thick) g in
  let '(color_var, g) := randint rt (-40) 20 g in
  let particle_color :=
    (Z.max 0 (Z.min 255 (200 + color_var)),
     Z.max 0 (Z.min 255 (180 + color_var)),
     Z.max 0 (Z.min 255 (160 + color_var))) in
  (Debris_init rt (px, floor_y, pz) particle_color None, g).

Definition spawn_rubble_pile (self : World) (g : Rng rt) (x1 z1 x2 z2 : Z)
    : World * Rng rt :=
  let wall_key := sorted_pair (x1, z1) (x2, z2) in
  if bool_decide (wall_key ∈ _spawned_rubble self) then (self, g)
  else
    let self := set_spawned_rubble ({[wall_key]} ∪ _spawned_rubble self) self in
    let '(pieces, g) :=
      append_particles (rubble_particle x1 z1 x2 z2) 80 (debris_pieces self) g in
    (set_debris_pieces pieces self, g).

End PillarsAndRubble.

(** ** The arguments on which the methods return *)

(** The calls below convert grid coordinates and configuration ints to
    floats; CPython raises [OverflowError] when one is beyond the binary64
    range, at a point where part of the world has already been written.
    These are the arguments within range, for which the definitions above
    are the code; the statements that say a call returns and what it
    produced are made for them. *)

Definition point_safe (p : Point) : Prop := Py.float_safe p.1 ∧ Py.float_safe p.2.

(** [hit_wall], [destroy_wall] and [spawn_wall_debris] halve the sums of
    the coordinates of the key and [PILLAR_SPACING], and convert
    [WALL_THICKNESS]. *)
Definition wall_in_range (cfg : Config) (k : WallKey) : Prop :=
  point_safe k.1 ∧ point_safe k.2 ∧
  Py.float_safe (Z.pos (PILLAR_SPACING cfg)) ∧ Py.float_safe (WALL_THICKNESS cfg).

(** The pre-damage roll of [has_wall_between] halves the sums of the
    coordinates and converts [ZONE_SIZE]. *)
Definition roll_in_range (cfg : Config) (x1 z1 x2 z2 : Z) : Prop :=
  point_safe (x1, z1) ∧ point_safe (x2, z2) ∧ Py.float_safe (Z.pos (ZONE_SIZE cfg)).

(** [destroy_pillar] converts the coordinates of the key and
    [PILLAR_SIZE]; within this range the squares it takes do not overflow
    either. *)
Definition pillar_in_range (cfg : Config) (key : Point) : Prop :=
  point_safe key ∧ Py.float_safe (PILLAR_SIZE cfg).

(** [spawn_rubble_pile] converts the coordinates and [WALL_THICKNESS]. *)
Definition rubble_in_range (cfg : Config) (x1 z1 x2 z2 : Z) : Prop :=
  point_safe (x1, z1) ∧ point_safe (x2, z2) ∧ Py.float_safe (WALL_THICKNESS cfg).


(** ** A concrete world to run the methods on *)

(** A configuration and a runtime on which the methods evaluate: a
    400-unit lattice without pillars, generators that draw [roll] every
    time, zones that never decay, the strict literal reader for [eval], and
    a particle that keeps what its constructor is given. *)
Module Fixture.

Definition cfg : Config :=
  mkConfig 400 80 "none" 20 2000 120 (200, 190, 150) (100, 100, 100) 100%float 0%float.

Definition new_debris (position : Vec3) (c : Color) (velocity : option Vec3) : Debris :=
  match velocity with
  | Some v => mkDebris position.1.1 position.1.2 position.2 c v.1.1 v.1.2 v.2 false true
  | None => mkDebris position.1.1 position.1.2 position.2 c 0%float 0%float 0%float true true
  end.

Definition rt (roll : float) : Runtime :=
  mkRuntime (λ _, 0) unit (λ _, tt) (λ g, (roll, g)) (λ g _, (0, g))
    Literal.eval_point Literal.eval_wall (λ _ _ _, mkZoneProps 0%float)
    new_debris (λ d _ _, d).

(** The wall from the origin to the next lattice point along x. *)
Definition wall : WallKey := ((0, 0), (400, 0)).

(** A world in which [wall] is destroyed while the maps still say
    CRACKED with health 0.75. *)
Definition ruined : World :=
  set_destroyed_walls {[wall]}
    (set_wall_health {[wall := 0.75%float]}
       (set_wall_states {[wall := CRACKED]} (new_World 7))).

(** The [i]-th of a run of active particles, told apart by [cx = i]. *)
Definition numbered (i : nat) : Debris :=
  mkDebris (Py.float_of_int (Z.of_nat i)) 0%float 0%float (0, 0, 0)
    0%float 0%float 0%float false true.

(** A world whose pool holds 1001 active particles, appended in the order
    0, 1, ..., 1000. *)
Definition crowded : World :=
  set_debris_pieces (numbered <$> seq 0 1001) (new_World 7).


(** A world with something in every attribute that is saved. *)
Definition explored : World :=
  {| world_seed := 7;
     pillar_cache := {[ (200, 200) := true; (600, 200) := false ]};
     wall_cache := {[ wall := true; ((0, 0), (0, 400)) := true ]};
     zone_cache := {[ (0, 0) := mkZoneProps 0.25%float ]};
     destroyed_walls := {[ ((0, -400), (0, 0)) ]};
     destroyed_pillars := {[ (200, 200) ]};
     destroyed_lamps := ∅;
     triggered_traps := ∅;
     pre_damaged_walls := {[ ((0, -400), (0, 0)) := 0.125%float ]};
     wall_states := {[ wall := CRACKED ]};
     wall_health := {[ wall := 0.5%float ]};
     wall_cracks := {[ wall := [(0.5, 0.5, 1, 0.25)%float] ]};
     debris_pieces := [];
     _spawned_rubble := ∅ |}.

End Fixture.

(** * Vocabulary of the properties *)

(** ** Wall damage *)

(** The state a wall is moved to by a hit that leaves it standing with
    health [h]: the ladder of [hit_wall] below the DESTROYED branch. *)
Definition ladder (h : float) (s : WallState) : WallState :=
  if (h <=? 0.33)%float && negb (bool_decide (s = FRACTURED)) then FRACTURED
  else if (h <=? 0.66)%float && bool_decide (s = INTACT) then CRACKED
  else s.

(** What [hit_wall] reads for a wall that is not destroyed: its health
    and state after the lazy initialisation. *)
Definition health_before (w : World) (k : WallKey) : float :=
  default 1.0%float (wall_health w !! k).

Definition state_before (w : World) (k : WallKey) : option WallState :=
  match wall_health w !! k with
  | Some _ => wall_states w !! k
  | None => Some INTACT
  end.

(** The number of cracks a hit adds, read off the event it emits. *)
Definition cracks_added (ev : list Event) : nat :=
  match ev with
  | [WALL_CRACKED _ _] => 1
  | [WALL_FRACTURED _ _] => 2
  | _ => 0
  end.

(** What the event of a hit says about the hit: the flag returned and the
    state the wall is left in. *)
Definition reports (cfg : Config) (ev : list Event) (r : bool) (k : WallKey)
    (w' : World) : Prop :=
  match ev with
  | [] => r = false
  | [WALL_CRACKED k0 p] =>
      r = false ∧ k0 = k ∧ p = _get_wall_center cfg k ∧ wall_states w' !! k = Some CRACKED
  | [WALL_FRACTURED k0 p] =>
      r = false ∧ k0 = k ∧ p = _get_wall_center cfg k ∧ wall_states w' !! k = Some FRACTURED
  | [WALL_DESTROYED k0 p] =>
      r = true ∧ k0 = k ∧ p = _get_wall_center cfg k ∧ wall_states w' !! k = Some DESTROYED
  | _ => False
  end.

(** Every entry of [wall_health] has one in [wall_states]. *)
Definition states_cover_health (w : World) : Prop :=
  ∀ k, is_Some (wall_health w !! k) → is_Some (wall_states w !! k).

(** ** Debris *)

(** A colour whose three channels are within 0..255. *)
Definition byte_color (c : Color) : Prop :=
  (0 ≤ c.1.1 ≤ 255) ∧ (0 ≤ c.1.2 ≤ 255) ∧ (0 ≤ c.2 ≤ 255).

(** A [pow] to run [destroy_pillar] with: exact on the exponent 2, the
    only one it is called with. *)
Definition pow_square (x _ : float) : float := (x * x)%float.

(** ** Key strings and documents *)

(** What may follow an integer literal: nothing, or a character that is
    not a digit. *)
Definition ends_number (rest : string) : Prop :=
  match rest with
  | EmptyString => True
  | String c _ => Literal.digit_of c = None
  end.

(** Assigning the items of a dict one after the other, as the loops and
    comprehensions of [load_state] do. *)
Definition assign_all {K} `{Countable K} {B} (acc : gmap K B) (l : list (K * B)) : gmap K B :=
  foldl (λ m kv, <[kv.1 := kv.2]> m) acc l.

(** ** Exploration *)

(** [w'] is [w] after some first discoveries: the caches, the pre-damage
    map and the destroyed walls have only grown, a wall is newly destroyed
    only with a fresh pre-damage below 0.2, and nothing else differs. *)
Record discovers (w w' : World) : Prop := mkDiscovers {
  disc_seed : world_seed w' = world_seed w;
  disc_health : wall_health w' = wall_health w;
  disc_states : wall_states w' = wall_states w;
  disc_cracks : wall_cracks w' = wall_cracks w;
  disc_debris : debris_pieces w' = debris_pieces w;
  disc_pillars : destroyed_pillars w' = destroyed_pillars w;
  disc_lamps : destroyed_lamps w' = destroyed_lamps w;
  disc_traps : triggered_traps w' = triggered_traps w;
  disc_rubble : _spawned_rubble w' = _spawned_rubble w;
  disc_wall_cache : wall_cache w ⊆ wall_cache w';
  disc_pillar_cache : pillar_cache w ⊆ pillar_cache w';
  disc_zone_cache : zone_cache w ⊆ zone_cache w';
  disc_pre_damaged : pre_damaged_walls w ⊆ pre_damaged_walls w';
  disc_destroyed : destroyed_walls w ⊆ destroyed_walls w';
  disc_new_destroyed : ∀ k,
    k ∈ destroyed_walls w' → k ∉ destroyed_walls w →
    ∃ d, pre_damaged_walls w' !! k = Some d ∧
         pre_damaged_walls w !! k = None ∧
         (d <? 0.2)%float = true
}.

(** Every cached zone entry is the one the zone generator gives for the
    seed of the world (as in a fresh world, and after [load_state], which
    empties the cache). *)
Definition zone_cache_coherent (rt : Runtime) (w : World) : Prop :=
  ∀ zone props, zone_cache w !! zone = Some props →
                props = zone_properties rt zone.1 zone.2 (world_seed w).

(** [w'] is [w] after some first discoveries by the generator itself: on
    top of [discovers], a wall that is newly destroyed had no cache entry
    before, and a new zone entry is the one the zone generator gives for
    the seed. *)
Record explores (rt : Runtime) (w w' : World) : Prop := mkExplores {
  exp_discovers : discovers w w';
  exp_destroyed : ∀ k,
    k ∈ destroyed_walls w' → k ∉ destroyed_walls w → wall_cache w !! k = None;
  exp_zones : ∀ zone props,
    zone_cache w' !! zone = Some props → zone_cache w !! zone = None →
    props = zone_properties rt zone.1 zone.2 (world_seed w)
}.

(** The world after a run of collision queries. *)
Definition after_queries (cfg : Config) (rt : Runtime) (w : World)
    (positions : list (float * float)) : World :=
  foldl (λ w0 p, (check_collision cfg rt w0 p.1 p.2).2) w positions.

(** * Properties *)

(** Settle a range condition on concrete ints. *)
Ltac in_range := repeat split; unfold Py.float_safe; simpl; lia.

(** Expose the attributes of every world in the context. *)
Ltac open_worlds :=
  repeat match goal with w : World |- _ => destruct w end; simpl in *.

(** [x < y] implies [x <= y] on floats. *)
Lemma float_ltb_leb (x y : float) : (x <? y)%float = true → (x <=? y)%float = true.
Proof.
  rewrite FloatAxioms.ltb_spec, FloatAxioms.leb_spec.
  unfold SpecFloat.SFltb, SpecFloat.SFleb.
  by destruct (SpecFloat.SFcompare _ _) as [[]|].
Qed.

Section DamageStore.

Context (cfg : Config) (rt : Runtime).

Lemma add_crack_frame (w : World) g k hu hv :
  let w' := (_add_crack rt w g k hu hv).1 in
  w' = set_wall_cracks (wall_cracks w') w.
Proof.
  unfold _add_crack, uniform.
  destruct hu, hv; repeat destruct (rng_random rt _); by destruct w.
Qed.

Lemma spawn_particles_length n k pieces g :
  length (spawn_particles cfg rt n k pieces g).1 = (length pieces + n)%nat.
Proof.
  revert pieces g. induction n as [|n IH]; intros pieces g; simpl.
  - lia.
  - destruct (wall_debris_particle cfg rt k g) as [d g'].
    rewrite IH, length_app. simpl. lia.
Qed.

Lemma spawn_particles_prefix n k pieces g :
  pieces `prefix_of` (spawn_particles cfg rt n k pieces g).1.
Proof.
  revert pieces g. induction n as [|n IH]; intros pieces g; simpl.
  - done.
  - destruct (wall_debris_particle cfg rt k g) as [d g'].
    etrans; [|apply IH]. by apply prefix_app_r.
Qed.

Lemma spawn_wall_debris_spec (w : World) g k :
  let w' := (spawn_wall_debris cfg rt w g k).1 in
  w' = set_debris_pieces (debris_pieces w') w ∧
  length (debris_pieces w') = (length (debris_pieces w) + 150)%nat ∧
  debris_pieces w `prefix_of` debris_pieces w'.
Proof.
  unfold spawn_wall_debris.
  pose proof (spawn_particles_length 150 k (debris_pieces w) g) as Hlen.
  pose proof (spawn_particles_prefix 150 k (debris_pieces w) g) as Hpre.
  destruct (spawn_particles cfg rt 150 k (debris_pieces w) g) as [pieces g'].
  by destruct w.
Qed.

(** Name the world a call of [_add_crack] returns: the argument with
    another [wall_cracks]. *)
Ltac crack_step rt :=
  match goal with
  | |- context [_add_crack rt ?w1 ?g1 ?k None None] =>
      let w2 := fresh "w" in let g2 := fresh "g" in
      let E := fresh in let H := fresh in let c := fresh "cracks" in
      pose proof (add_crack_frame w1 g1 k None None) as H;
      destruct (_add_crack rt w1 g1 k None None) as [w2 g2] eqn:E;
      simpl in H; set (c := wall_cracks w2) in H; clearbody c; subst w2; clear E
  end.

(** A hit on a destroyed wall changes nothing and returns [False]. *)
Lemma hit_wall_destroyed (w : World) g k d :
  k ∈ destroyed_walls w → hit_wall cfg rt w g k d = Some (false, w, g, []).
Proof. intros Hk. unfold hit_wall. by rewrite bool_decide_eq_true_2. Qed.

(** A hit that brings the health to zero or below destroys the wall. *)
Lemma hit_wall_kills (w : World) g k d :
  k ∉ destroyed_walls w →
  (health_before w k - d <=? 0.0)%float = true →
  ∃ w' g',
    hit_wall cfg rt w g k d
      = Some (true, w', g', [WALL_DESTROYED k (_get_wall_center cfg k)]) ∧
    destroyed_walls w' = {[k]} ∪ destroyed_walls w ∧
    wall_health w' !! k = Some (health_before w k - d)%float ∧
    wall_states w' !! k = Some DESTROYED ∧
    length (debris_pieces w') = (length (debris_pieces w) + 150)%nat.
Proof.
  intros Hk Hh. unfold hit_wall, health_before in *.
  rewrite bool_decide_eq_false_2 by done.
  set (w0 := match wall_health w !! k with Some _ => w | None => _ end).
  assert (default 1%float (wall_health w0 !! k) = default 1%float (wall_health w !! k)) as ->.
  { subst w0. destruct (wall_health w !! k) eqn:E; [by rewrite E|].
    destruct w; simpl. by rewrite lookup_insert_eq. }
  rewrite Hh.
  match goal with |- context [spawn_wall_debris cfg rt ?w1 g k] =>
    pose proof (spawn_wall_debris_spec w1 g k) as (Hw & Hlen & _);
    destruct (spawn_wall_debris cfg rt w1 g k) as [w' g'] end.
  simpl in *. exists w', g'. split; [done|]. rewrite Hw.
  subst w0. destruct (wall_health w !! k); destruct w; simpl in *;
    rewrite ?lookup_insert_eq; repeat split; try done; lia.
Qed.

(** A hit that leaves positive health moves the wall along the ladder and
    touches neither the destroyed set nor the debris. *)
Lemma hit_wall_survives (w : World) g k d s :
  k ∉ destroyed_walls w →
  state_before w k = Some s →
  (health_before w k - d <=? 0.0)%float = false →
  ∃ w' g' ev,
    hit_wall cfg rt w g k d = Some (false, w', g', ev) ∧
    destroyed_walls w' = destroyed_walls w ∧
    wall_health w' !! k = Some (health_before w k - d)%float ∧
    wall_states w' !! k = Some (ladder (health_before w k - d) s) ∧
    debris_pieces w' = debris_pieces w.
Proof.
  intros Hk Hs Hh. unfold hit_wall, health_before, state_before, ladder in *.
  rewrite bool_decide_eq_false_2 by done.
  set (w0 := match wall_health w !! k with Some _ => w | None => _ end).
  assert (default 1%float (wall_health w0 !! k) = default 1%float (wall_health w !! k)
          ∧ wall_states w0 !! k = Some s ∧ destroyed_walls w0 = destroyed_walls w
          ∧ debris_pieces w0 = debris_pieces w) as (-> & Hs0 & Hd0 & Hp0).
  { subst w0. destruct (wall_health w !! k) eqn:E; [by rewrite E|].
    destruct w; simpl in *. rewrite !lookup_insert_eq. by simplify_eq. }
  clearbody w0. set (h := (default 1%float (wall_health w !! k) - d)%float) in *.
  rewrite Hh.
  assert (∀ v, wall_states (set_wall_health v w0) !! k = Some s) as Hst
    by (intros v; by destruct w0).
  rewrite !Hst. simpl.
  destruct (h <=? 0.33)%float, (h <=? 0.66)%float;
    repeat case_bool_decide; simpl; repeat crack_step rt;
    eexists _, _, _; (split; [reflexivity|]);
    destruct w0; simpl in *; rewrite ?lookup_insert_eq; by simplify_eq.
Qed.

(** The two getters on a wall that is not destroyed read the maps. *)
Lemma getters_alive (w : World) k h s :
  k ∉ destroyed_walls w → wall_health w !! k = Some h → wall_states w !! k = Some s →
  get_wall_health w k = h ∧ get_wall_state w k = s.
Proof.
  intros Hk Hh Hs. unfold get_wall_health, get_wall_state.
  rewrite bool_decide_eq_false_2 by done. by rewrite Hh, Hs.
Qed.

(** One surviving hit of a wall whose health and state entries are known. *)
Lemma hit_wall_step (w : World) g k d h s :
  k ∉ destroyed_walls w →
  wall_health w !! k = Some h → wall_states w !! k = Some s →
  (h - d <=? 0.0)%float = false →
  ∃ w' g' ev,
    hit_wall cfg rt w g k d = Some (false, w', g', ev) ∧
    (k ∉ destroyed_walls w') ∧
    wall_health w' !! k = Some (h - d)%float ∧
    wall_states w' !! k = Some (ladder (h - d) s) ∧
    debris_pieces w' = debris_pieces w.
Proof.
  intros Hk Hh Hs Hpos.
  destruct (hit_wall_survives w g k d s) as (w' & g' & ev & Hcall & Hd & Hh' & Hs' & Hp).
  - done.
  - unfold state_before. by rewrite Hh.
  - unfold health_before. by rewrite Hh.
  - unfold health_before in *. rewrite Hh in *. simpl in *.
    exists w', g', ev. by rewrite Hd.
Qed.

(** Whatever a hit does, it destroys the wall exactly when it returns
    [True], and destroys no other wall. *)
Lemma hit_wall_destroyed_set (w : World) g k d r w' g' ev :
  hit_wall cfg rt w g k d = Some (r, w', g', ev) →
  destroyed_walls w' = if r then {[k]} ∪ destroyed_walls w else destroyed_walls w.
Proof.
  unfold hit_wall. case_bool_decide; [by intros [= <- <- <- <-]|].
  set (w0 := match wall_health w !! k with Some _ => w | None => _ end).
  assert (destroyed_walls w0 = destroyed_walls w) as <-
    by (subst w0; destruct (wall_health w !! k); by destruct w).
  clearbody w0. set (h := (default 1%float (wall_health w0 !! k) - d)%float).
  clearbody h. destruct (h <=? 0)%float.
  - match goal with |- context [spawn_wall_debris cfg rt ?w1 g k] =>
      pose proof (spawn_wall_debris_spec w1 g k) as (Hw & _);
      destruct (spawn_wall_debris cfg rt w1 g k) as [w2 g2] end.
    simpl in Hw. intros [= <- <- <- <-]. rewrite Hw. by destruct w0.
  - destruct (h <=? 0.33)%float, (h <=? 0.66)%float;
      assert (∀ v, wall_states (set_wall_health v w0) !! k = wall_states w0 !! k) as Hst
        by (intros v; by destruct w0);
      rewrite ?Hst; destruct (wall_states w0 !! k) as [s|]; simpl; try done;
      repeat case_bool_decide; simpl; repeat crack_step rt;
      intros [= <- <- <- <-]; by destruct w0.
Qed.

Lemma destroy_wall_spec (w : World) g k snd :
  let w' := (destroy_wall cfg rt w g k snd).1.1 in
  k ∈ destroyed_walls w' ∧ destroyed_walls w ⊆ destroyed_walls w'.
Proof.
  unfold destroy_wall. case_bool_decide; [set_solver|].
  match goal with |- context [spawn_wall_debris cfg rt ?w1 g k] =>
    pose proof (spawn_wall_debris_spec w1 g k) as (Hw & _);
    destruct (spawn_wall_debris cfg rt w1 g k) as [w2 g2] end.
  simpl in *. rewrite Hw. destruct w; simpl. set_solver.
Qed.

End DamageStore.

(** ** The damage ladder *)

(** C3.  A wall with no damage recorded, its key and the configuration
    within float range, hit four times with damage 0.25:
    the health read back is 0.75, 0.5, 0.25 and 0.0, the state INTACT,
    CRACKED, FRACTURED and DESTROYED; only the fourth call returns [True],
    adds the key to [destroyed_walls] and spawns the 150 debris particles;
    after it every hit of that wall returns [False] and changes nothing. *)
Theorem four_quarter_hits_destroy (cfg : Config) (rt : Runtime)
    (w : World) (g : Rng rt) (k : WallKey) :
  wall_in_range cfg k →
  k ∉ destroyed_walls w →
  wall_health w !! k = None →
  ∃ w1 g1 e1 w2 g2 e2 w3 g3 e3 w4 g4,
    hit_wall cfg rt w g k 0.25 = Some (false, w1, g1, e1) ∧
    get_wall_health w1 k = 0.75%float ∧ get_wall_state w1 k = INTACT ∧
    hit_wall cfg rt w1 g1 k 0.25 = Some (false, w2, g2, e2) ∧
    get_wall_health w2 k = 0.5%float ∧ get_wall_state w2 k = CRACKED ∧
    hit_wall cfg rt w2 g2 k 0.25 = Some (false, w3, g3, e3) ∧
    get_wall_health w3 k = 0.25%float ∧ get_wall_state w3 k = FRACTURED ∧
    (k ∉ destroyed_walls w3) ∧ debris_pieces w3 = debris_pieces w ∧
    hit_wall cfg rt w3 g3 k 0.25
      = Some (true, w4, g4, [WALL_DESTROYED k (_get_wall_center cfg k)]) ∧
    get_wall_health w4 k = 0.0%float ∧ get_wall_state w4 k = DESTROYED ∧
    k ∈ destroyed_walls w4 ∧
    length (debris_pieces w4) = (length (debris_pieces w) + 150)%nat ∧
    ∀ d g', hit_wall cfg rt w4 g' k d = Some (false, w4, g', []).
Proof.
  intros _ Hk Hnone.
  destruct (hit_wall_survives cfg rt w g k 0.25 INTACT)
    as (w1 & g1 & e1 & Hc1 & Hd1 & Hh1 & Hs1 & Hp1); try done.
  { unfold state_before. by rewrite Hnone. }
  { unfold health_before. by rewrite Hnone. }
  unfold health_before in Hh1, Hs1. rewrite Hnone in Hh1, Hs1.
  assert (k ∉ destroyed_walls w1) as Hk1 by (rewrite Hd1; exact Hk).
  destruct (hit_wall_step cfg rt w1 g1 k 0.25 _ _ Hk1 Hh1 Hs1)
    as (w2 & g2 & e2 & Hc2 & Hk2 & Hh2 & Hs2 & Hp2); [done|].
  destruct (hit_wall_step cfg rt w2 g2 k 0.25 _ _ Hk2 Hh2 Hs2)
    as (w3 & g3 & e3 & Hc3 & Hk3 & Hh3 & Hs3 & Hp3); [done|].
  destruct (hit_wall_kills cfg rt w3 g3 k 0.25 Hk3)
    as (w4 & g4 & Hc4 & Hd4 & Hh4 & Hs4 & Hp4).
  { unfold health_before. by rewrite Hh3. }
  assert (k ∈ destroyed_walls w4) as Hk4 by (rewrite Hd4; apply elem_of_union_l, elem_of_singleton_2; reflexivity).
  exists w1, g1, e1, w2, g2, e2, w3, g3, e3, w4, g4.
  destruct (getters_alive w1 k _ _ Hk1 Hh1 Hs1) as [-> ->].
  destruct (getters_alive w2 k _ _ Hk2 Hh2 Hs2) as [-> ->].
  destruct (getters_alive w3 k _ _ Hk3 Hh3 Hs3) as [-> ->].
  unfold get_wall_health, get_wall_state. rewrite (bool_decide_eq_true_2 _ Hk4).
  repeat split; try done.
  - by rewrite Hp3, Hp2, Hp1.
  - by rewrite Hp4, Hp3, Hp2, Hp1.
  - intros d g'. by apply hit_wall_destroyed.
Qed.

Lemma four_quarter_hits_destroy_witness :
  let cfg := Fixture.cfg in
  let rt := Fixture.rt 0.5 in
  let w := new_World 7 in
  let g : Rng rt := tt in
  let k := Fixture.wall in
  ∃ w1 g1 e1 w2 g2 e2 w3 g3 e3 w4 g4,
    hit_wall cfg rt w g k 0.25 = Some (false, w1, g1, e1) ∧
    get_wall_health w1 k = 0.75%float ∧ get_wall_state w1 k = INTACT ∧
    hit_wall cfg rt w1 g1 k 0.25 = Some (false, w2, g2, e2) ∧
    get_wall_health w2 k = 0.5%float ∧ get_wall_state w2 k = CRACKED ∧
    hit_wall cfg rt w2 g2 k 0.25 = Some (false, w3, g3, e3) ∧
    get_wall_health w3 k = 0.25%float ∧ get_wall_state w3 k = FRACTURED ∧
    (k ∉ destroyed_walls w3) ∧ debris_pieces w3 = debris_pieces w ∧
    hit_wall cfg rt w3 g3 k 0.25
      = Some (true, w4, g4, [WALL_DESTROYED k (_get_wall_center cfg k)]) ∧
    get_wall_health w4 k = 0.0%float ∧ get_wall_state w4 k = DESTROYED ∧
    k ∈ destroyed_walls w4 ∧
    length (debris_pieces w4) = (length (debris_pieces w) + 150)%nat ∧
    ∀ d g', hit_wall cfg rt w4 g' k d = Some (false, w4, g', []).
Proof.
  intros cfg rt w g k.
  apply (four_quarter_hits_destroy cfg rt w g k).
  - in_range.
  - apply not_elem_of_empty.
  - reflexivity.
Defined.

(** ** The destroyed set overrides the maps *)

(** C4.  A wall key in [destroyed_walls] reads health 0.0 and state
    DESTROYED whatever the health and state maps hold, in any world and so
    in the world every [hit_wall] or [destroy_wall] call returns; such a call
    never takes a key out of the set, a [hit_wall] that returns [True] and
    every [destroy_wall] put their key in. *)
Theorem destroyed_overrides_maps (cfg : Config) (rt : Runtime) (w : World) (k : WallKey) :
  k ∈ destroyed_walls w →
  (get_wall_health w k = 0.0%float ∧ get_wall_state w k = DESTROYED) ∧
  (∀ g k0 d r w' g' ev,
     hit_wall cfg rt w g k0 d = Some (r, w', g', ev) →
     (get_wall_health w' k = 0.0%float ∧ get_wall_state w' k = DESTROYED) ∧
     (r = true → get_wall_health w' k0 = 0.0%float ∧ get_wall_state w' k0 = DESTROYED)) ∧
  (∀ g k0 snd,
     let w' := (destroy_wall cfg rt w g k0 snd).1.1 in
     (get_wall_health w' k = 0.0%float ∧ get_wall_state w' k = DESTROYED) ∧
     (get_wall_health w' k0 = 0.0%float ∧ get_wall_state w' k0 = DESTROYED)).
Proof.
  assert (∀ w1 k1, k1 ∈ destroyed_walls w1 →
            get_wall_health w1 k1 = 0.0%float ∧ get_wall_state w1 k1 = DESTROYED) as Hread.
  { intros w1 k1 H1. unfold get_wall_health, get_wall_state.
    by rewrite (bool_decide_eq_true_2 _ H1). }
  intros Hk. split; [by apply Hread|]. split.
  - intros g k0 d r w' g' ev Hcall.
    apply hit_wall_destroyed_set in Hcall. split.
    + apply Hread. rewrite Hcall.
      destruct r; [apply elem_of_union_r|]; exact Hk.
    + intros ->. apply Hread. rewrite Hcall.
      apply elem_of_union_l, elem_of_singleton_2. reflexivity.
  - intros g k0 snd w'.
    destruct (destroy_wall_spec cfg rt w g k0 snd) as [Hin Hsub].
    split; apply Hread; [by apply Hsub | done].
Qed.

Lemma destroyed_overrides_maps_witness :
  wall_health Fixture.ruined !! Fixture.wall = Some 0.75%float ∧
  wall_states Fixture.ruined !! Fixture.wall = Some CRACKED ∧
  get_wall_health Fixture.ruined Fixture.wall = 0.0%float ∧
  get_wall_state Fixture.ruined Fixture.wall = DESTROYED.
Proof.
  split; [reflexivity|]. split; [reflexivity|].
  apply (destroyed_overrides_maps Fixture.cfg (Fixture.rt 0.5) Fixture.ruined Fixture.wall).
  change (Fixture.wall ∈ ({[Fixture.wall]} : gset WallKey)).
  apply elem_of_singleton_2. reflexivity.
Defined.

(** ** Stored health is not clamped *)

(** C10.  A hit that takes the health of a standing wall strictly below
    zero (key and configuration within float range) stores that negative
    value in [wall_health], and the document of
    [get_state_for_save] carries it under the key's string, while
    [get_wall_health] reads 0.0 because the wall is now in the destroyed
    set. *)
Theorem overkill_keeps_negative_health (cfg : Config) (rt : Runtime)
    (w : World) (g : Rng rt) (k : WallKey) (damage : float) :
  wall_in_range cfg k →
  k ∉ destroyed_walls w →
  (default 1.0 (wall_health w !! k) - damage <? 0.0)%float = true →
  ∃ w' g' ev,
    hit_wall cfg rt w g k damage = Some (true, w', g', ev) ∧
    wall_health w' !! k = Some (default 1.0 (wall_health w !! k) - damage)%float ∧
    (repr_wall k, (default 1.0 (wall_health w !! k) - damage)%float)
      ∈ default [] (doc_wall_health (get_state_for_save w')) ∧
    get_wall_health w' k = 0.0%float.
Proof.
  intros _ Hk Hneg.
  destruct (hit_wall_kills cfg rt w g k damage Hk)
    as (w' & g' & Hcall & Hd & Hh & _ & _).
  { by apply float_ltb_leb. }
  unfold health_before in *.
  eexists w', g', _. split; [exact Hcall|]. split; [exact Hh|]. split.
  - simpl. unfold str_items. apply list_elem_of_fmap.
    exists (k, (default 1%float (wall_health w !! k) - damage)%float).
    split; [reflexivity|]. by apply elem_of_map_to_list.
  - unfold get_wall_health. rewrite bool_decide_eq_true_2; [done|].
    rewrite Hd. apply elem_of_union_l, elem_of_singleton_2. reflexivity.
Qed.

Lemma overkill_keeps_negative_health_witness :
  ∃ w' g' ev,
    hit_wall Fixture.cfg (Fixture.rt 0.5) (new_World 7) tt Fixture.wall 1.5
      = Some (true, w', g', ev) ∧
    wall_health w' !! Fixture.wall = Some (-0.5)%float ∧
    (repr_wall Fixture.wall, (-0.5)%float)
      ∈ default [] (doc_wall_health (get_state_for_save w')) ∧
    get_wall_health w' Fixture.wall = 0.0%float.
Proof.
  apply (overkill_keeps_negative_health Fixture.cfg (Fixture.rt 0.5)
           (new_World 7) tt Fixture.wall 1.5).
  - in_range.
  - apply not_elem_of_empty.
  - reflexivity.
Defined.

(** ** The debris pool *)

(** The saved debris list is the first 1000 active particles of the pool,
    in pool order, so it never has more than 1000 entries. *)
Lemma saved_debris_at_most_1000 (w : World) :
  doc_debris_pieces (get_state_for_save w)
    = Some (take 1000 (debris_dict <$> List.filter active (debris_pieces w))) ∧
  (length (default [] (doc_debris_pieces (get_state_for_save w))) ≤ 1000)%nat.
Proof.
  split; [reflexivity|]. simpl. rewrite length_take. lia.
Qed.

(** C5 (the code departs from it).  With 1001 active particles in the
    pool, appended in the order 0 to 1000, the document keeps the
    particles 0 to 999: the slice [[:1000]] retains the oldest thousand
    and drops the most recently appended one. *)
Theorem save_keeps_oldest_debris :
  last (debris_pieces Fixture.crowded) = Some (Fixture.numbered 1000) ∧
  (λ d, Py.int_of_float (d_cx d))
    <$> default [] (doc_debris_pieces (get_state_for_save Fixture.crowded))
  = Z.of_nat <$> seq 0 1000.
Proof.
  split; vm_compute; reflexivity.
Qed.

Section DebrisPool.

Context (cfg : Config) (rt : Runtime).

(** The particles that the loop of [update_debris] leaves active are the
    updated particles that their own update left active and that are not
    beyond the cull distance, in pool order. *)
Lemma filter_update_particle dt player_x player_z (l : list Debris) :
  List.filter active (update_particle cfg rt dt player_x player_z <$> l)
  = List.filter
      (λ u, active u &&
            negb (900 * 900 <? (cx u - player_x) * (cx u - player_x)
                               + (cz u - player_z) * (cz u - player_z))%float)
      ((λ d, Debris_update rt d dt (get_scaled_floor_y cfg)) <$> l).
Proof.
  induction l as [|d l IH]; [done|].
  rewrite !fmap_cons. cbn [List.filter]. rewrite IH.
  set (u := Debris_update rt d dt (get_scaled_floor_y cfg)).
  set (far := (900 * 900 <? (cx u - player_x) * (cx u - player_x)
                            + (cz u - player_z) * (cz u - player_z))%float).
  assert (active (update_particle cfg rt dt player_x player_z d) = active u && negb far ∧
          (active u && negb far = true → update_particle cfg rt dt player_x player_z d = u))
    as [Ha Hu].
  { unfold update_particle. fold u.
    change (DEBRIS_CULL_DIST * DEBRIS_CULL_DIST)%float with (900 * 900)%float. fold far.
    destruct (active u) eqn:Hact; simpl; [|by rewrite Hact].
    destruct far; simpl; [done|]. by rewrite Hact. }
  rewrite Ha. destruct (active u && negb far) eqn:E; [by rewrite Hu|done].
Qed.

End DebrisPool.

(** C6.  After [update_debris] the pool is made of the particles of the
    old pool as their own update left them, in pool order: those that
    update left active and whose squared horizontal distance from the
    player does not exceed 900.0 * 900.0, cut down to the last 12000 of
    them when there are more.  So every particle left is active and within
    the cull distance, there are at most 12000, they are the most recently
    appended ones of the list as culled (the cap comes after the cull),
    and when at most 12000 pass the cull every one of them is retained. *)
Theorem update_debris_culls_then_caps (cfg : Config) (rt : Runtime)
    (w : World) (dt player_x player_z : float) :
  let updated := (λ d, Debris_update rt d dt (get_scaled_floor_y cfg)) <$> debris_pieces w in
  let in_reach := λ u : Debris,
    negb (900 * 900 <? (cx u - player_x) * (cx u - player_x)
                       + (cz u - player_z) * (cz u - player_z))%float in
  let kept := List.filter (λ u, active u && in_reach u) updated in
  let pool := debris_pieces (update_debris cfg rt w dt player_x player_z) in
  pool = drop (length kept - MAX_DEBRIS) kept ∧
  (Z.of_nat (length pool) ≤ 12000) ∧
  pool `suffix_of` kept ∧
  Forall (λ u, u ∈ updated ∧ active u = true ∧ in_reach u = true) pool ∧
  (Z.of_nat (length kept) ≤ 12000 →
   pool = kept ∧
   ∀ u, u ∈ updated → active u = true → in_reach u = true → u ∈ pool).
Proof.
  intros updated in_reach kept pool.
  assert (pool = drop (length kept - MAX_DEBRIS) kept) as Hpool.
  { subst pool kept updated in_reach. unfold update_debris.
    rewrite filter_update_particle.
    set (l := List.filter _ _).
    destruct (MAX_DEBRIS <? length l)%nat eqn:Hlen; destruct w; simpl; [done|].
    apply Nat.ltb_ge in Hlen.
    by replace (length l - MAX_DEBRIS)%nat with 0%nat by lia. }
  assert (∀ u, u ∈ kept ↔ u ∈ updated ∧ active u = true ∧ in_reach u = true) as Hkept.
  { intros u. subst kept. rewrite list_elem_of_In, filter_In, <- list_elem_of_In.
    by rewrite andb_true_iff. }
  split; [exact Hpool|]. rewrite Hpool. split; [|split; [|split]].
  - rewrite length_drop. unfold MAX_DEBRIS. lia.
  - apply suffix_drop.
  - apply Forall_drop, Forall_forall. intros u Hu. by apply Hkept.
  - intros Hfew.
    replace (length kept - MAX_DEBRIS)%nat with 0%nat by (unfold MAX_DEBRIS; lia).
    split; [done|]. intros u Hu Hact Hreach. by apply Hkept.
Qed.

(** ** Key strings read back *)

Section LiteralRoundTrip.

Import Literal.

(* stdpp keeps [append] folded under [simpl]; the readers below are
   followed character by character. *)
#[local] Arguments String.append !_ _ / : simpl nomatch.

Lemma string_app_assoc (a b c : string) : (a +:+ b) +:+ c = a +:+ (b +:+ c).
Proof. induction a as [|ch a IH]; simpl; [done|]. by f_equal. Qed.

Lemma string_app_nil_r (a : string) : a +:+ "" = a.
Proof. induction a as [|ch a IH]; simpl; [done|]. by f_equal. Qed.

Lemma read_digits_app (u : Decimal.uint) (rest : string) :
  ends_number rest →
  read_digits (NilEmpty.string_of_uint u +:+ rest) = (u, rest).
Proof.
  intros Hrest. induction u as [|u IH|u IH|u IH|u IH|u IH|u IH|u IH|u IH|u IH|u IH];
    simpl; try (by rewrite IH).
  destruct rest as [|c rest]; simpl in *; [done|]. by rewrite Hrest.
Qed.

Lemma read_int_positive (u : Decimal.uint) (rest : string) :
  u ≠ Decimal.Nil → ends_number rest →
  read_int (NilEmpty.string_of_uint u +:+ rest) = Some (Z.of_int (Decimal.Pos u), rest).
Proof.
  intros Hu Hrest.
  pose proof (read_digits_app u rest Hrest) as Hread.
  destruct u; try done; simpl in *;
    match type of Hread with
    | (let '(_, _) := ?r in _) = _ => destruct r as [u' rest']; by simplify_eq
    end.
Qed.

Lemma read_int_repr (n : Z) (rest : string) :
  ends_number rest → read_int (repr_int n +:+ rest) = Some (n, rest).
Proof.
  intros Hrest. unfold repr_int.
  rewrite <- (DecimalZ.of_to n) at 2.
  destruct n as [|p|p]; simpl.
  - destruct rest as [|c rest]; simpl in *; [done|]. by rewrite Hrest.
  - pose proof (Unsigned.to_uint_nonnil p) as Hnil.
    unfold NilZero.string_of_uint.
    destruct (Pos.to_uint p) eqn:E; try done; rewrite <- E in *;
      by apply read_int_positive.
  - pose proof (Unsigned.to_uint_nonnil p) as Hnil.
    unfold NilZero.string_of_uint.
    pose proof (read_digits_app (Pos.to_uint p) rest Hrest) as Hread.
    destruct (Pos.to_uint p) eqn:E; try done; rewrite <- E in *;
      rewrite Hread; rewrite E; reflexivity.
Qed.

Lemma expect_app (p s : string) : expect p (p +:+ s) = Some s.
Proof.
  induction p as [|c p IH]; simpl; [done|]. by rewrite Ascii.eqb_refl.
Qed.

Lemma read_point_repr (p : Point) (rest : string) :
  read_point (repr_point p +:+ rest) = Some (p, rest).
Proof.
  destruct p as [x z]. unfold repr_point, read_point. cbn [fst snd].
  rewrite !string_app_assoc, expect_app. cbn [mbind option_bind].
  rewrite read_int_repr by done. cbn [mbind option_bind].
  rewrite expect_app. cbn [mbind option_bind].
  rewrite read_int_repr by done. cbn [mbind option_bind].
  by rewrite expect_app.
Qed.

(** The literal reader inverts [str] on points and on wall keys. *)
Lemma eval_point_repr (p : Point) : eval_point (repr_point p) = Some p.
Proof.
  unfold eval_point. rewrite <- (string_app_nil_r (repr_point p)).
  by rewrite read_point_repr.
Qed.

Lemma eval_wall_repr (k : WallKey) : eval_wall (repr_wall k) = Some k.
Proof.
  destruct k as [a b]. unfold eval_wall, repr_wall. cbn [fst snd].
  rewrite expect_app. cbn [mbind option_bind].
  rewrite read_point_repr. cbn [mbind option_bind].
  rewrite expect_app. cbn [mbind option_bind].
  rewrite read_point_repr. cbn [mbind option_bind].
  reflexivity.
Qed.

End LiteralRoundTrip.

(** ** Saving and loading *)

Section SaveLoad.

Context {K : Type} `{Countable K}.

Lemma assign_all_map_to_list {B} (m : gmap K B) : assign_all ∅ (map_to_list m) = m.
Proof.
  assert (∀ l : list (K * B), assign_all ∅ l = list_to_map (reverse l)) as Hrev.
  { induction l as [|kv l IH] using rev_ind; [done|].
    unfold assign_all in *. rewrite foldl_app, reverse_snoc. simpl. by rewrite IH. }
  rewrite Hrev. symmetry. apply list_to_map_flip. by rewrite reverse_Permutation.
Qed.

Lemma eval_entries_fmap {A B} (ev : string → option K) (conv : A → option B)
    (str : K → string) (f : B → A) (l : list (K * B)) (acc : gmap K B) :
  (∀ k, ev (str k) = Some k) → (∀ v, conv (f v) = Some v) →
  eval_entries ev conv ((λ kv, (str kv.1, f kv.2)) <$> l) acc = (assign_all acc l, true).
Proof.
  intros Hev Hconv. revert acc.
  induction l as [|[k v] l IH]; intros acc; simpl; [done|].
  by rewrite Hev, Hconv, IH.
Qed.

(** Reading back the items written for a dict gives the dict. *)
Lemma eval_entries_str_items {A B} (ev : string → option K) (conv : A → option B)
    (str : K → string) (f : B → A) (m : gmap K B) :
  (∀ k, ev (str k) = Some k) → (∀ v, conv (f v) = Some v) →
  eval_entries ev conv (str_items str f m) ∅ = (m, true).
Proof.
  intros Hev Hconv. unfold str_items.
  by rewrite eval_entries_fmap, assign_all_map_to_list.
Qed.


End SaveLoad.

Lemma WallState_of_name_name (s : WallState) : WallState_of_name (WallState_name s) = Some s.
Proof. by destruct s. Qed.

(** C2.  Provided [eval] gives back the key that [str] wrote, loading the
    document of [get_state_for_save w] returns, and whatever the loading
    world [w0] held before, it now has the seed, the destroyed walls,
    pillars, lamps and traps, the wall states, health and cracks, the
    pre-damage and the wall and pillar caches of [w], and an empty zone
    cache. *)
Theorem save_load_round_trip (rt : Runtime) (w w0 : World) :
  (∀ k, py_eval_wall rt (repr_wall k) = Some k) →
  (∀ p, py_eval_point rt (repr_point p) = Some p) →
  ∃ w',
    load_state rt w0 (get_state_for_save w) = Returned w' ∧
    world_seed w' = world_seed w ∧
    destroyed_walls w' = destroyed_walls w ∧
    destroyed_pillars w' = destroyed_pillars w ∧
    destroyed_lamps w' = destroyed_lamps w ∧
    triggered_traps w' = triggered_traps w ∧
    wall_states w' = wall_states w ∧
    wall_health w' = wall_health w ∧
    wall_cracks w' = wall_cracks w ∧
    pre_damaged_walls w' = pre_damaged_walls w ∧
    wall_cache w' = wall_cache w ∧
    pillar_cache w' = pillar_cache w ∧
    zone_cache w' = ∅.
Proof.
  intros Hwall Hpoint. unfold load_state, get_state_for_save.
  cbn [doc_seed doc_wall_cache doc_pillar_cache doc_destroyed_walls
       doc_destroyed_pillars doc_destroyed_lamps doc_triggered_traps
       doc_wall_states doc_wall_health doc_wall_cracks doc_pre_damaged_walls
       doc_debris_pieces default from_option].
  repeat match goal with |- context [id ?x] => change (id x) with x end.
  rewrite !(eval_entries_str_items (py_eval_wall rt) Some repr_wall id) by done.
  rewrite (eval_entries_str_items (py_eval_point rt) Some repr_point id) by done.
  rewrite (eval_entries_str_items (py_eval_wall rt) WallState_of_name repr_wall
             WallState_name) by (done || apply WallState_of_name_name).
  cbn [negb].
  eexists. split; [reflexivity|].
  destruct w, w0; cbn.
  rewrite !list_to_set_elements_L. by repeat split.
Qed.

Lemma save_load_round_trip_witness :
  ∃ w',
    load_state (Fixture.rt 0.5) Fixture.ruined (get_state_for_save Fixture.explored)
      = Returned w' ∧
    world_seed w' = 7 ∧
    destroyed_walls w' = {[ ((0, -400), (0, 0)) ]} ∧
    wall_states w' = {[ Fixture.wall := CRACKED ]} ∧
    wall_health w' = {[ Fixture.wall := 0.5%float ]} ∧
    zone_cache w' = ∅.
Proof.
  destruct (save_load_round_trip (Fixture.rt 0.5) Fixture.explored Fixture.ruined
              eval_wall_repr eval_point_repr)
    as (w' & Hload & Hseed & Hdw & _ & _ & _ & Hst & Hh & _ & _ & _ & _ & Hz).
  exists w'. by repeat split.
Defined.

(** ** Malformed key strings *)






(** ** What a collision query may change *)

Section Discovery.

Context (cfg : Config) (rt : Runtime).

Lemma discovers_refl (w : World) : discovers w w.
Proof. constructor; try done; intros k Hin Hout; by destruct Hout. Qed.

Lemma discovers_trans (w1 w2 w3 : World) :
  discovers w1 w2 → discovers w2 w3 → discovers w1 w3.
Proof.
  intros [] []. constructor; try congruence; try (by etrans).
  intros k Hin Hout.
  destruct (decide (k ∈ destroyed_walls w2)) as [Hmid|Hmid].
  - destruct (disc_new_destroyed0 k Hmid Hout) as (d & Hd & Hnone & Hlt).
    exists d. split; [|done]. by eapply lookup_weaken.
  - destruct (disc_new_destroyed1 k Hin Hmid) as (d & Hd & Hnone & Hlt).
    exists d. repeat split; try done.
    destruct (pre_damaged_walls w1 !! k) as [d1|] eqn:E; [|done].
    eapply lookup_weaken in E; [|done]. congruence.
Qed.

(** A zone lookup only fills the zone cache. *)
Lemma get_zone_properties_zone_cache (w : World) zone_x zone_z :
  ∃ zc, (get_zone_properties rt w zone_x zone_z).2 = set_zone_cache zc w ∧
        zone_cache w ⊆ zc.
Proof.
  unfold get_zone_properties.
  destruct (zone_cache w !! (zone_x, zone_z)) eqn:E; simpl.
  - exists (zone_cache w). split; [by destruct w|done].
  - eexists. split; [reflexivity|]. by apply insert_subseteq.
Qed.

Lemma roll_pre_damage_discovers (w : World) key x1 z1 x2 z2 :
  pre_damaged_walls w !! key = None →
  discovers w (roll_pre_damage cfg rt w key x1 z1 x2 z2).
Proof.
  intros Hnone. unfold roll_pre_damage.
  match goal with |- context [get_zone_properties rt w ?a ?b] =>
    destruct (get_zone_properties_zone_cache w a b) as (zc & Hw1 & Hzc);
    destruct (get_zone_properties rt w a b) as [props w1] end.
  simpl in Hw1. subst w1.
  destruct (rng_random rt _) as [r rng].
  set (damage := (uniform rt 0 0.5 rng).1).
  destruct (r <? decay_chance props)%float;
    [destruct (damage <? 0.2)%float eqn:Hlt|];
    destruct w; simpl in *; constructor; simpl; try done;
    try (by apply insert_subseteq); try (intros k Hin Hout; by destruct Hout).
  - apply union_subseteq_r.
  - intros k Hin Hout. apply elem_of_union in Hin as [Hin|Hin]; [|by destruct Hout].
    apply elem_of_singleton in Hin as ->.
    exists damage. by rewrite lookup_insert_eq.
Qed.

Lemma has_wall_between_discovers (w : World) x1 z1 x2 z2 :
  discovers w (has_wall_between cfg rt w x1 z1 x2 z2).2.
Proof.
  unfold has_wall_between.
  set (key := sorted_pair (x1, z1) (x2, z2)).
  destruct (wall_cache w !! key) eqn:Hcache; simpl; [apply discovers_refl|].
  destruct (negb _); simpl.
  - destruct w; simpl in *. constructor; simpl; try done;
      try (by apply insert_subseteq); intros k Hin Hout; by destruct Hout.
  - set (w1 := match pre_damaged_walls w !! key with Some _ => w | None => _ end).
    assert (discovers w w1) as Hw1.
    { subst w1. destruct (pre_damaged_walls w !! key) eqn:E;
        [apply discovers_refl | by apply roll_pre_damage_discovers]. }
    assert (wall_cache w1 !! key = None) as Hcache1.
    { subst w1. destruct (pre_damaged_walls w !! key); [done|].
      unfold roll_pre_damage.
      match goal with |- context [get_zone_properties rt w ?a ?b] =>
        destruct (get_zone_properties_zone_cache w a b) as (zc & Hz & _);
        destruct (get_zone_properties rt w a b) as [props w2] end.
      simpl in Hz. subst w2. destruct (rng_random rt _) as [r rng].
      destruct (r <? _)%float; [destruct (_ <? 0.2)%float|]; by destruct w. }
    clearbody w1. eapply discovers_trans; [exact Hw1|].
    destruct w1; simpl in *. constructor; simpl; try done;
      try (by apply insert_subseteq); intros k Hin Hout; by destruct Hout.
Qed.

Lemma has_pillar_at_discovers (w : World) px pz :
  discovers w (has_pillar_at cfg rt w px pz).2.
Proof.
  unfold has_pillar_at.
  destruct (pillar_cache w !! (px, pz)) eqn:Hcache; simpl; [apply discovers_refl|].
  assert (∀ b, discovers w (set_pillar_cache (<[(px, pz) := b]> (pillar_cache w)) w)) as Hins.
  { intros b. destruct w; simpl in *. constructor; simpl; try done;
      try (by apply insert_subseteq); intros k Hin Hout; by destruct Hout. }
  repeat match goal with |- context [if ?c then _ else _] => destruct c end;
    simpl; apply Hins.
Qed.

Lemma check_wall_discovers (w : World) x1 z1 x2 z2 along across wall_start wall_pos :
  discovers w (check_wall cfg rt w x1 z1 x2 z2 along across wall_start wall_pos).2.
Proof.
  unfold check_wall.
  pose proof (has_wall_between_discovers w x1 z1 x2 z2) as Hw.
  destruct (has_wall_between cfg rt w x1 z1 x2 z2) as [has_wall w1]. simpl in Hw.
  destruct has_wall; [|done]. case_bool_decide; [done|].
  by destruct (wall_blocks _ _ _ _ _ _).
Qed.

Lemma check_cell_discovers (w : World) x z px_grid pz_grid :
  discovers w (check_cell cfg rt w x z px_grid pz_grid).2.
Proof.
  unfold check_cell.
  match goal with |- context [check_wall cfg rt w ?a ?b ?c ?d ?e ?f ?g ?h] =>
    pose proof (check_wall_discovers w a b c d e f g h) as H1;
    destruct (check_wall cfg rt w a b c d e f g h) as [flow1 w1] end.
  simpl in H1. destruct flow1; try done.
  match goal with |- context [check_wall cfg rt w1 ?a ?b ?c ?d ?e ?f ?g ?h] =>
    pose proof (check_wall_discovers w1 a b c d e f g h) as H2;
    destruct (check_wall cfg rt w1 a b c d e f g h) as [flow2 w2] end.
  simpl in H2. pose proof (discovers_trans _ _ _ H1 H2) as H12.
  destruct flow2; try done.
  match goal with |- context [has_pillar_at cfg rt w2 ?a ?b] =>
    pose proof (has_pillar_at_discovers w2 a b) as H3;
    destruct (has_pillar_at cfg rt w2 a b) as [has_pillar w3] end.
  simpl in H3. pose proof (discovers_trans _ _ _ H12 H3) as H123.
  by destruct (_ && _).
Qed.

Lemma scan_z_discovers (w : World) x z px_grid zs :
  discovers w (scan_z cfg rt w x z px_grid zs).2.
Proof.
  revert w. induction zs as [|pz_grid zs IH]; intros w; simpl; [apply discovers_refl|].
  pose proof (check_cell_discovers w x z px_grid pz_grid) as Hcell.
  destruct (check_cell cfg rt w x z px_grid pz_grid) as [hit w1]. simpl in Hcell.
  destruct hit; [done|]. eapply discovers_trans; [exact Hcell|apply IH].
Qed.

Lemma scan_x_discovers (w : World) x z xs zs :
  discovers w (scan_x cfg rt w x z xs zs).2.
Proof.
  revert w. induction xs as [|px_grid xs IH]; intros w; simpl; [apply discovers_refl|].
  pose proof (scan_z_discovers w x z px_grid zs) as Hrow.
  destruct (scan_z cfg rt w x z px_grid zs) as [hit w1]. simpl in Hrow.
  destruct hit; [done|]. eapply discovers_trans; [exact Hrow|apply IH].
Qed.

Lemma check_collision_discovers (w : World) x z :
  discovers w (check_collision cfg rt w x z).2.
Proof.
  unfold check_collision. destruct (_ || _); [apply discovers_refl|].
  destruct (grid_bounds cfg x), (grid_bounds cfg z). apply scan_x_discovers.
Qed.

End Discovery.

(** C9.  A collision query leaves [wall_health], [wall_states],
    [wall_cracks] and [debris_pieces] (and the seed, the destroyed pillars,
    lamps, traps and the rubble marks) as they were.  What it may change are
    the wall, pillar and zone caches and the pre-damage map, which keep
    every entry they had, and the destroyed walls, which keep their members
    and gain only walls that got a fresh pre-damage below 0.2. *)
Theorem check_collision_frame (cfg : Config) (rt : Runtime) (w : World) (x z : float) :
  let w' := (check_collision cfg rt w x z).2 in
  (wall_health w' = wall_health w ∧ wall_states w' = wall_states w ∧
   wall_cracks w' = wall_cracks w ∧ debris_pieces w' = debris_pieces w) ∧
  (world_seed w' = world_seed w ∧ destroyed_pillars w' = destroyed_pillars w ∧
   destroyed_lamps w' = destroyed_lamps w ∧ triggered_traps w' = triggered_traps w ∧
   _spawned_rubble w' = _spawned_rubble w) ∧
  (wall_cache w ⊆ wall_cache w' ∧ pillar_cache w ⊆ pillar_cache w' ∧
   zone_cache w ⊆ zone_cache w' ∧ pre_damaged_walls w ⊆ pre_damaged_walls w' ∧
   destroyed_walls w ⊆ destroyed_walls w') ∧
  ∀ k, k ∈ destroyed_walls w' → k ∉ destroyed_walls w →
       ∃ d, pre_damaged_walls w' !! k = Some d ∧
            pre_damaged_walls w !! k = None ∧
            (d <? 0.2)%float = true.
Proof.
  intros w'. destruct (check_collision_discovers cfg rt w x z).
  by repeat split.
Qed.

(** ** Determinism of the generator *)

Section Determinism.

Context (cfg : Config) (rt : Runtime).

Lemma has_pillar_at_cached (w : World) px pz :
  pillar_cache (has_pillar_at cfg rt w px pz).2 !! (px, pz)
    = Some (has_pillar_at cfg rt w px pz).1.
Proof.
  unfold has_pillar_at.
  destruct (pillar_cache w !! (px, pz)) eqn:Hcache; simpl; [done|].
  repeat match goal with |- context [if ?c then _ else _] => destruct c end;
    destruct w; simpl; by rewrite lookup_insert_eq.
Qed.

Lemma has_wall_between_cached (w : World) x1 z1 x2 z2 :
  wall_cache (has_wall_between cfg rt w x1 z1 x2 z2).2 !! sorted_pair (x1, z1) (x2, z2)
    = Some (has_wall_between cfg rt w x1 z1 x2 z2).1.
Proof.
  unfold has_wall_between.
  destruct (wall_cache w !! _) eqn:Hcache; simpl; [done|].
  destruct (negb _); simpl.
  - destruct w; simpl. by rewrite lookup_insert_eq.
  - match goal with |- context [set_wall_cache _ ?w1] => destruct w1 end.
    simpl. by rewrite lookup_insert_eq.
Qed.

(** The zone properties a world hands out are the generator's. *)
Lemma get_zone_properties_value (w : World) zone_x zone_z :
  zone_cache_coherent rt w →
  (get_zone_properties rt w zone_x zone_z).1
    = zone_properties rt zone_x zone_z (world_seed w).
Proof.
  intros Hcoh. unfold get_zone_properties.
  destruct (zone_cache w !! (zone_x, zone_z)) eqn:E; simpl; [|done].
  by apply Hcoh in E.
Qed.

(** The pre-damage entry left by the roll depends on the seed and the
    coordinates only. *)
Lemma roll_pre_damage_entry (w : World) key x1 z1 x2 z2 :
  zone_cache_coherent rt w →
  pre_damaged_walls w !! key = None → key ∉ destroyed_walls w →
  let w' := roll_pre_damage cfg rt w key x1 z1 x2 z2 in
  let f' := roll_pre_damage cfg rt (new_World (world_seed w)) key x1 z1 x2 z2 in
  pre_damaged_walls w' !! key = pre_damaged_walls f' !! key ∧
  (key ∈ destroyed_walls w' ↔ key ∈ destroyed_walls f').
Proof.
  intros Hcoh Hnone Hout. unfold roll_pre_damage.
  assert (zone_cache_coherent rt (new_World (world_seed w))) as Hfresh by (by intros ? ? ?).
  repeat match goal with |- context [get_zone_properties rt ?w0 ?a ?b] =>
    let props := fresh "props" in let w1 := fresh "w" in
    let Hp := fresh "Hp" in let Hz := fresh "Hz" in let zc := fresh "zc" in
    first [ pose proof (get_zone_properties_value w0 a b Hcoh) as Hp
          | pose proof (get_zone_properties_value w0 a b Hfresh) as Hp ];
    destruct (get_zone_properties_zone_cache rt w0 a b) as (zc & Hz & _);
    destruct (get_zone_properties rt w0 a b) as [props w1];
    simpl in Hp, Hz; subst props w1
  end.
  replace (world_seed (set_zone_cache zc w)) with (world_seed w) by (by destruct w).
  replace (world_seed (set_zone_cache zc0 (new_World (world_seed w))))
    with (world_seed w) by done.
  simpl. destruct (rng_random rt _) as [r rng].
  destruct (r <? _)%float; [destruct (_ <? 0.2)%float|];
    destruct w; simpl in *; rewrite ?lookup_insert_eq, ?Hnone; split; try done.
  split; intros _; apply elem_of_union_l, elem_of_singleton_2; reflexivity.
Qed.

End Determinism.

(** C8.  Asked twice on one world, [has_pillar_at] and [has_wall_between]
    give the answer of the first call and change nothing more, so the
    pre-damage of the wall stays what the first call made it;
    [get_doorway_type] depends on the world through its seed only.  And a
    first query gives what it gives in a fresh world of the same seed: for
    a pillar, in any world without a cache entry for the point; for a wall
    within float range, in any world with a coherent zone cache in which
    the wall has no cache entry, no pre-damage entry and is not destroyed
    (a loaded document may hold such entries for a wall not yet cached,
    and the roll is then skipped): the same answer, the same pre-damage
    entry and the same destroyed flag. *)
Theorem generator_is_deterministic (cfg : Config) (rt : Runtime)
    (w : World) (x1 z1 x2 z2 : Z) :
  let fresh := new_World (world_seed w) in
  let key := sorted_pair (x1, z1) (x2, z2) in
  (has_pillar_at cfg rt (has_pillar_at cfg rt w x1 z1).2 x1 z1
     = has_pillar_at cfg rt w x1 z1) ∧
  (has_wall_between cfg rt (has_wall_between cfg rt w x1 z1 x2 z2).2 x1 z1 x2 z2
     = has_wall_between cfg rt w x1 z1 x2 z2) ∧
  (∀ w2, world_seed w2 = world_seed w →
         get_doorway_type rt w2 x1 z1 x2 z2 = get_doorway_type rt w x1 z1 x2 z2) ∧
  (pillar_cache w !! (x1, z1) = None →
   (has_pillar_at cfg rt w x1 z1).1 = (has_pillar_at cfg rt fresh x1 z1).1) ∧
  (roll_in_range cfg x1 z1 x2 z2 → zone_cache_coherent rt w →
   wall_cache w !! key = None → pre_damaged_walls w !! key = None →
   key ∉ destroyed_walls w →
   let w' := (has_wall_between cfg rt w x1 z1 x2 z2).2 in
   let f' := (has_wall_between cfg rt fresh x1 z1 x2 z2).2 in
   (has_wall_between cfg rt w x1 z1 x2 z2).1 = (has_wall_between cfg rt fresh x1 z1 x2 z2).1 ∧
   pre_damaged_walls w' !! key = pre_damaged_walls f' !! key ∧
   (key ∈ destroyed_walls w' ↔ key ∈ destroyed_walls f')).
Proof.
  intros fresh key. split; [|split; [|split; [|split]]].
  - pose proof (has_pillar_at_cached cfg rt w x1 z1) as Hc.
    destruct (has_pillar_at cfg rt w x1 z1) as [b w1]. simpl in *.
    unfold has_pillar_at at 1. by rewrite Hc.
  - pose proof (has_wall_between_cached cfg rt w x1 z1 x2 z2) as Hc.
    destruct (has_wall_between cfg rt w x1 z1 x2 z2) as [b w1]. simpl in *.
    unfold has_wall_between at 1. by rewrite Hc.
  - intros w2 Hseed. unfold get_doorway_type. by rewrite Hseed.
  - intros Hnone. unfold has_pillar_at. rewrite Hnone.
    change (pillar_cache fresh !! (x1, z1)) with (@None bool).
    change (world_seed fresh) with (world_seed w).
    repeat match goal with |- context [if ?c then _ else _] => destruct c end; done.
  - intros _ Hcoh Hcache Hpre Hout w' f'. subst w' f'.
    destruct (roll_pre_damage_entry cfg rt w key x1 z1 x2 z2 Hcoh Hpre Hout)
      as [Hentry Hd].
    unfold has_wall_between. fold key. rewrite Hcache, Hpre.
    change (wall_cache fresh !! key) with (@None bool).
    change (pre_damaged_walls fresh !! key) with (@None float).
    destruct (negb _); simpl.
    + split; [done|]. destruct w; simpl in *. rewrite Hpre.
      split; [done|]. split; [done|]. intros Hin. by apply elem_of_empty in Hin.
    + simpl in Hentry, Hd. split; [done|].
      repeat match goal with |- context [set_wall_cache ?c ?w1] =>
        replace (pre_damaged_walls (set_wall_cache c w1)) with (pre_damaged_walls w1)
          by (by destruct w1);
        replace (destroyed_walls (set_wall_cache c w1)) with (destroyed_walls w1)
          by (by destruct w1) end.
      by split.
Qed.

Lemma generator_is_deterministic_witness :
  let w := Fixture.ruined in
  let r := has_wall_between Fixture.cfg (Fixture.rt 0.5) w 0 0 0 400 in
  let f := has_wall_between Fixture.cfg (Fixture.rt 0.5) (new_World 7) 0 0 0 400 in
  r.1 = f.1 ∧
  pre_damaged_walls r.2 !! ((0, 0), (0, 400)) = pre_damaged_walls f.2 !! ((0, 0), (0, 400)).
Proof.
  intros w r f.
  destruct (generator_is_deterministic Fixture.cfg (Fixture.rt 0.5) w 0 0 0 400)
    as (_ & _ & _ & _ & Hwall).
  destruct Hwall as (Hans & Hpre & _).
  - in_range.
  - intros zone props Hsome. simpl in Hsome. by rewrite lookup_empty in Hsome.
  - reflexivity.
  - reflexivity.
  - change (((0, 0), (0, 400)) ∉ ({[Fixture.wall]} : gset WallKey)).
    intros Hin. apply elem_of_singleton in Hin. discriminate Hin.
  - split; [exact Hans|exact Hpre].
Defined.

(** * Further properties of the code *)

(** ** Wall keys forget the order of the endpoints *)

Lemma sorted_pair_comm (a b : Point) : sorted_pair a b = sorted_pair b a.
Proof.
  destruct a as [a1 a2], b as [b1 b2]. unfold sorted_pair, point_ltb. simpl.
  destruct (Z.ltb_spec b1 a1), (Z.eqb_spec b1 a1), (Z.ltb_spec b2 a2),
    (Z.ltb_spec a1 b1), (Z.eqb_spec a1 b1), (Z.ltb_spec a2 b2); simpl;
    try reflexivity; try lia; f_equal; f_equal; lia.
Qed.

(** Once a pair of grid points has been asked about, asking with the two
    points exchanged reads the same cache entry: it gives the answer of
    the first call and changes nothing (no second pre-damage roll).  For an
    axis-aligned pair the doorway classification does not depend on the
    order of the points either. *)
Theorem endpoint_order_is_forgotten (cfg : Config) (rt : Runtime)
    (w : World) (x1 z1 x2 z2 : Z) :
  let first := has_wall_between cfg rt w x1 z1 x2 z2 in
  has_wall_between cfg rt first.2 x2 z2 x1 z1 = first ∧
  (z1 = z2 ∨ x1 = x2 →
   get_doorway_type rt w x2 z2 x1 z1 = get_doorway_type rt w x1 z1 x2 z2).
Proof.
  intros first. split.
  - pose proof (has_wall_between_cached cfg rt w x1 z1 x2 z2) as Hc.
    subst first. destruct (has_wall_between cfg rt w x1 z1 x2 z2) as [b w1].
    simpl in *. unfold has_wall_between.
    rewrite (sorted_pair_comm (x2, z2) (x1, z1)). by rewrite Hc.
  - intros Haxis. unfold get_doorway_type.
    destruct (Z.eqb_spec z1 z2) as [->|Hz].
    + rewrite Z.eqb_refl. by rewrite (Z.add_comm x2 x1).
    + destruct Haxis as [?| ->]; [done|].
      destruct (Z.eqb_spec z2 z1) as [?|_]; [by subst|].
      by rewrite (Z.add_comm z2 z1).
Qed.

(** A first query about a pair of grid points within float range answers
    [True] exactly when the pair is axis-aligned, whether or not the points
    are neighbours on the lattice, and records that answer. *)
Theorem walls_join_aligned_points (cfg : Config) (rt : Runtime)
    (w : World) (x1 z1 x2 z2 : Z) :
  roll_in_range cfg x1 z1 x2 z2 →
  wall_cache w !! sorted_pair (x1, z1) (x2, z2) = None →
  let r := has_wall_between cfg rt w x1 z1 x2 z2 in
  r.1 = (z1 =? z2) || (x1 =? x2) ∧
  wall_cache r.2 !! sorted_pair (x1, z1) (x2, z2) = Some ((z1 =? z2) || (x1 =? x2)).
Proof.
  intros _ Hnone r.
  pose proof (has_wall_between_cached cfg rt w x1 z1 x2 z2) as Hc. fold r in Hc.
  assert (r.1 = (z1 =? z2) || (x1 =? x2)) as Hr.
  { subst r. unfold has_wall_between. rewrite Hnone.
    by destruct ((z1 =? z2) || (x1 =? x2)). }
  split; [done|]. by rewrite Hc, Hr.
Qed.

Lemma walls_join_aligned_points_witness :
  (has_wall_between Fixture.cfg (Fixture.rt 0.5) (new_World 7) 0 0 4000 0).1 = true ∧
  (has_wall_between Fixture.cfg (Fixture.rt 0.5) (new_World 7) 0 0 400 400).1 = false.
Proof.
  split.
  - apply (walls_join_aligned_points Fixture.cfg (Fixture.rt 0.5) (new_World 7) 0 0 4000 0);
      [in_range|reflexivity].
  - apply (walls_join_aligned_points Fixture.cfg (Fixture.rt 0.5) (new_World 7) 0 0 400 400);
      [in_range|reflexivity].
Defined.

(** The decay roll of a first wall query: the wall ends up destroyed
    exactly when the pre-damage then read for it is below 0.2 (a wall
    whose roll left no pre-damage reads 1.0 and stands). *)
Theorem decay_destroys_below_fifth (cfg : Config) (rt : Runtime)
    (w : World) (x1 z1 x2 z2 : Z) :
  let key := sorted_pair (x1, z1) (x2, z2) in
  wall_cache w !! key = None → pre_damaged_walls w !! key = None →
  key ∉ destroyed_walls w →
  let w' := (has_wall_between cfg rt w x1 z1 x2 z2).2 in
  (key ∈ destroyed_walls w' ↔ (get_wall_damage w' key <? 0.2)%float = true) ∧
  (pre_damaged_walls w' !! key = None → get_wall_damage w' key = 1.0%float).
Proof.
  intros key Hcache Hpre Hout w'. subst w'. unfold has_wall_between, get_wall_damage.
  fold key. rewrite Hcache, Hpre.
  destruct (negb _); simpl.
  { destruct w; simpl in *. rewrite Hpre. simpl. split; [|done].
    split; [by intros ?|]. by intros ?. }
  unfold roll_pre_damage.
  match goal with |- context [get_zone_properties rt w ?a ?b] =>
    destruct (get_zone_properties_zone_cache rt w a b) as (zc & Hw1 & _);
    destruct (get_zone_properties rt w a b) as [props w1] end.
  simpl in Hw1. subst w1. destruct (rng_random rt _) as [r rng].
  destruct (r <? _)%float; [destruct (_ <? 0.2)%float eqn:Hlt|]; destruct w; simpl in *;
    rewrite ?lookup_insert_eq, ?Hpre; simpl; rewrite ?Hlt; (split; [|done]).
  - split; [done|]. intros _. apply elem_of_union_l, elem_of_singleton_2. reflexivity.
  - split; [by intros ?|]. by intros ?.
  - split; [by intros ?|]. by intros ?.
Qed.

Lemma decay_destroys_below_fifth_witness :
  get_wall_damage (has_wall_between Fixture.cfg (Fixture.rt 0.5) (new_World 7) 0 0 400 0).2
    Fixture.wall = 1.0%float.
Proof.
  apply (decay_destroys_below_fifth Fixture.cfg (Fixture.rt 0.5) (new_World 7) 0 0 400 0);
    try reflexivity.
  apply not_elem_of_empty.
Defined.

(** ** One hit, one wall *)

Section HitFrame.

Context (cfg : Config) (rt : Runtime).

Lemma add_crack_appends (w : World) g k :
  ∃ c, (_add_crack rt w g k None None).1
       = set_wall_cracks (<[k := default [] (wall_cracks w !! k) ++ [c]]> (wall_cracks w)) w.
Proof.
  unfold _add_crack, uniform. repeat destruct (rng_random rt _).
  eexists. reflexivity.
Qed.

(** What a hit leaves of the world.  Either the wall was destroyed
    already and nothing happened, or the world is the old one with other
    damage maps, destroyed walls and debris: the maps differ at the key
    only, the state is then present unless it was not needed, and the
    cracks of the wall were extended by as many as the event says. *)
Lemma hit_wall_frame (w : World) g k d r w' g' ev :
  hit_wall cfg rt w g k d = Some (r, w', g', ev) →
  (k ∈ destroyed_walls w ∧ w' = w ∧ g' = g ∧ r = false ∧ ev = []) ∨
  ((k ∉ destroyed_walls w) ∧ reports cfg ev r k w' ∧
   length (debris_pieces w') = (length (debris_pieces w) + if r then 150 else 0)%nat ∧
   w' = set_debris_pieces (debris_pieces w')
          (set_destroyed_walls (destroyed_walls w')
             (set_wall_cracks (wall_cracks w')
                (set_wall_states (wall_states w')
                   (set_wall_health (wall_health w') w)))) ∧
   (∃ h, wall_health w' = <[k := h]> (wall_health w)) ∧
   (wall_states w' = wall_states w ∧ is_Some (wall_health w !! k)
    ∨ ∃ s, wall_states w' = <[k := s]> (wall_states w)) ∧
   (∃ new, length new = cracks_added ev ∧
           (new = [] ∧ wall_cracks w' = wall_cracks w
            ∨ wall_cracks w'
              = <[k := default [] (wall_cracks w !! k) ++ new]> (wall_cracks w))) ∧
   debris_pieces w `prefix_of` debris_pieces w').
Proof.
  unfold hit_wall. case_bool_decide as Hd; [intros [= <- <- <- <-]; by left|].
  intros Hcall. right. split; [done|].
  destruct w as [seed pc wc zc dw dp dl tr pd ws wh wcr deb rub].
  cbn [wall_health wall_states destroyed_walls wall_cracks debris_pieces] in *.
  set (w0 := match wh !! k with Some _ => _ | None => _ end) in Hcall.
  set (h := (default 1 (wall_health w0 !! k) - d)%float) in Hcall. clearbody h.
  assert (∃ ws0, w0 = mkWorld seed pc wc zc dw dp dl tr pd ws0
                        (match wh !! k with Some _ => wh | None => <[k := 1%float]> wh end)
                        wcr deb rub ∧
                 (ws0 = ws ∧ wh !! k ≠ None ∨ ws0 = <[k := INTACT]> ws ∧ wh !! k = None)) as (ws0 & -> & Hws0).
  { subst w0. destruct (wh !! k); eexists; (split; [reflexivity|]); [left|right]; done. }
  cbn [set_wall_health set_wall_states set_destroyed_walls wall_health wall_states
       destroyed_walls wall_cracks debris_pieces] in Hcall.
  set (wh1 := <[k := h]> _) in Hcall.
  assert (wh1 = <[k := h]> wh) as Hwh1.
  { subst wh1. destruct (wh !! k); [done|]. by rewrite insert_insert_eq. }
  clearbody wh1. subst wh1.
  destruct (h <=? 0)%float.
  { match goal with H : context [spawn_wall_debris cfg rt ?w1 ?g1 k] |- _ =>
      pose proof (spawn_wall_debris_spec cfg rt w1 g1 k) as (Hw & Hlen & Hpre);
      destruct (spawn_wall_debris cfg rt w1 g1 k) as [w2 g2] end.
    cbn in Hw, Hpre, Hlen. injection Hcall as <- <- <- <-.
    split; [by rewrite Hw; cbn; rewrite lookup_insert_eq|]. split; [done|].
    rewrite Hw. cbn.
    split; [reflexivity|]. split; [by eexists|]. split.
    - right. destruct Hws0 as [[-> _]|[-> _]]; eexists; [done|by rewrite insert_insert_eq].
    - split; [|done]. exists []. split; [done|]. by left. }
  destruct (h <=? 0.33)%float, (h <=? 0.66)%float;
    destruct (ws0 !! k) as [s|] eqn:Hs; cbn in Hcall; try discriminate;
    repeat (case_bool_decide; cbn in Hcall);
    repeat match type of Hcall with context [_add_crack rt ?W ?G k None None] =>
      let c := fresh "c" in let Hc := fresh "Hc" in
      destruct (add_crack_appends W G k) as [c Hc];
      destruct (_add_crack rt W G k None None) as [? ?]; cbn in Hc; subst
    end;
    injection Hcall as <- <- <- <-; cbn;
    (split; [by rewrite ?lookup_insert_eq|]); (split; [lia|]);
    (split; [reflexivity|]); (split; [by eexists|]);
    (split; [|split; [|done]]).
  all: try (destruct Hws0 as [[-> Hne]|[-> Hn]];
    first [ left; split; [reflexivity|by destruct (wh !! k)]
          | right; eexists; first [reflexivity | by rewrite insert_insert_eq] ]).
  all: rewrite ?lookup_insert_eq, ?insert_insert_eq; cbn.
  all: first [ exists []; split; [reflexivity|]; by left
             | eexists [_]; split; [reflexivity|]; by right
             | eexists [_; _]; split; [reflexivity|]; right; by rewrite <- app_assoc ].
Qed.

(** [destroy_wall] on a standing wall, attribute by attribute. *)
Lemma destroy_wall_changes (w : World) g k snd :
  k ∉ destroyed_walls w →
  ∃ pieces g',
    destroy_wall cfg rt w g k snd
      = (set_debris_pieces pieces
           (set_wall_health (<[k := 0.0%float]> (wall_health w))
              (set_wall_states (<[k := DESTROYED]> (wall_states w))
                 (set_destroyed_walls ({[k]} ∪ destroyed_walls w) w))),
         g',
         WALL_DESTROYED k (_get_wall_center cfg k)
           :: (if snd then [SOUND_PLAYED] else [])) ∧
    length pieces = (length (debris_pieces w) + 150)%nat ∧
    debris_pieces w `prefix_of` pieces.
Proof.
  intros Hk. unfold destroy_wall. rewrite bool_decide_eq_false_2 by done.
  match goal with |- context [spawn_wall_debris cfg rt ?w1 ?g1 k] =>
    pose proof (spawn_wall_debris_spec cfg rt w1 g1 k) as (Hw & Hlen & Hpre);
    destruct (spawn_wall_debris cfg rt w1 g1 k) as [w2 g2] end.
  cbn in Hw, Hlen, Hpre. exists (debris_pieces w2), g2.
  split; [|by destruct w]. rewrite Hw at 1. by destruct w.
Qed.

End HitFrame.

(** A hit of the wall [k] leaves the seed, the three caches, the
    pre-damage map, the destroyed pillars, lamps and traps and the rubble
    marks alone; it leaves alone the health, state, cracks and destroyed
    flag of every other wall; and it only ever appends to the debris pool,
    150 particles when it returns [True] and none otherwise. *)
Theorem hit_wall_touches_one_wall (cfg : Config) (rt : Runtime)
    (w : World) (g : Rng rt) (k : WallKey) (d : float)
    (r : bool) (w' : World) (g' : Rng rt) (ev : list Event) :
  hit_wall cfg rt w g k d = Some (r, w', g', ev) →
  (world_seed w' = world_seed w ∧ wall_cache w' = wall_cache w ∧
   pillar_cache w' = pillar_cache w ∧ zone_cache w' = zone_cache w ∧
   pre_damaged_walls w' = pre_damaged_walls w ∧
   destroyed_pillars w' = destroyed_pillars w ∧
   destroyed_lamps w' = destroyed_lamps w ∧ triggered_traps w' = triggered_traps w ∧
   _spawned_rubble w' = _spawned_rubble w) ∧
  (∀ k', k' ≠ k →
     wall_health w' !! k' = wall_health w !! k' ∧
     wall_states w' !! k' = wall_states w !! k' ∧
     wall_cracks w' !! k' = wall_cracks w !! k' ∧
     (k' ∈ destroyed_walls w' ↔ k' ∈ destroyed_walls w)) ∧
  debris_pieces w `prefix_of` debris_pieces w' ∧
  length (debris_pieces w') = (length (debris_pieces w) + if r then 150 else 0)%nat.
Proof.
  intros Hcall. pose proof (hit_wall_destroyed_set cfg rt _ _ _ _ _ _ _ _ Hcall) as Hset.
  destruct (hit_wall_frame cfg rt _ _ _ _ _ _ _ _ Hcall)
    as [(_ & -> & _ & -> & _)|(_ & _ & Hlen & Hw & [h Hh] & Hs & (new & _ & Hc) & Hpre)].
  { repeat split; try done; simpl; lia. }
  split; [rewrite Hw; by destruct w|]. split; [|done].
  intros k' Hne. rewrite Hh, lookup_insert_ne by done. split; [done|]. split; [|split].
  - destruct Hs as [[-> _]|[s ->]]; [done|]. by rewrite lookup_insert_ne.
  - destruct Hc as [[_ ->]| ->]; [done|]. by rewrite lookup_insert_ne.
  - rewrite Hset. destruct r; [|done]. rewrite elem_of_union, elem_of_singleton.
    split; [intros [?|?]; [done|done]|by right].
Qed.

Lemma hit_wall_touches_one_wall_witness :
  ∃ w',
    hit_wall Fixture.cfg (Fixture.rt 0.5) Fixture.explored tt Fixture.wall 0.125
      = Some (false, w', tt, []) ∧
    wall_health w' !! Fixture.wall = Some 0.375%float ∧
    wall_cache w' = wall_cache Fixture.explored ∧
    debris_pieces Fixture.explored `prefix_of` debris_pieces w'.
Proof.
  pose (w' := set_wall_health (<[Fixture.wall := 0.375%float]> (wall_health Fixture.explored))
                Fixture.explored).
  assert (hit_wall Fixture.cfg (Fixture.rt 0.5) Fixture.explored tt Fixture.wall 0.125
          = Some (false, w', tt, [])) as Hcall by (vm_compute; reflexivity).
  exists w'. split; [exact Hcall|]. split; [reflexivity|].
  destruct (hit_wall_touches_one_wall _ _ _ _ _ _ _ _ _ _ Hcall)
    as ((_ & Hc & _) & _ & Hpre & _).
  by split.
Defined.

(** The event of a hit tells what the hit did: none when the wall only
    lost health (or was destroyed before), WALL_CRACKED with one new crack
    and the state CRACKED, WALL_FRACTURED with two new cracks and the state
    FRACTURED, WALL_DESTROYED with no new crack and the state DESTROYED,
    which is the one case in which the call returns [True]; the event
    names the wall and its centre, and the cracks the wall had are kept in
    front of the new ones. *)
Theorem hit_wall_event_tells_transition (cfg : Config) (rt : Runtime)
    (w : World) (g : Rng rt) (k : WallKey) (d : float)
    (r : bool) (w' : World) (g' : Rng rt) (ev : list Event) :
  hit_wall cfg rt w g k d = Some (r, w', g', ev) →
  reports cfg ev r k w' ∧
  ∃ new, get_wall_cracks w' k = get_wall_cracks w k ++ new ∧
         length new = cracks_added ev.
Proof.
  intros Hcall. unfold get_wall_cracks.
  destruct (hit_wall_frame cfg rt _ _ _ _ _ _ _ _ Hcall)
    as [(_ & -> & _ & -> & ->)|(_ & Hrep & _ & _ & _ & _ & (new & Hlen & Hc) & _)].
  { split; [done|]. exists []. by rewrite app_nil_r. }
  split; [done|]. exists new. split; [|done].
  destruct Hc as [[-> ->]| ->]; [by rewrite app_nil_r|by rewrite lookup_insert_eq].
Qed.

Lemma hit_wall_event_tells_transition_witness :
  ∃ w' c,
    hit_wall Fixture.cfg (Fixture.rt 0.5) (new_World 7) tt Fixture.wall 0.5
      = Some (false, w', tt, [WALL_CRACKED Fixture.wall (200, 50, 0)%float]) ∧
    wall_states w' !! Fixture.wall = Some CRACKED ∧
    get_wall_cracks w' Fixture.wall = [c].
Proof.
  pose (c := (0.5, 0.5, 0x1.921fb54442d18p+0, 0.25)%float : Crack).
  pose (w' := set_wall_cracks {[Fixture.wall := [c]]}
                (set_wall_states {[Fixture.wall := CRACKED]}
                   (set_wall_health {[Fixture.wall := 0.5%float]} (new_World 7)))).
  assert (hit_wall Fixture.cfg (Fixture.rt 0.5) (new_World 7) tt Fixture.wall 0.5
          = Some (false, w', tt, [WALL_CRACKED Fixture.wall (200, 50, 0)%float])) as Hcall
    by (vm_compute; reflexivity).
  exists w', c. split; [exact Hcall|].
  destruct (hit_wall_event_tells_transition _ _ _ _ _ _ _ _ _ _ Hcall)
    as ((_ & _ & _ & Hs) & _).
  split; [exact Hs|reflexivity].
Defined.

(** A wall that has a health entry but no state entry (as a loaded
    document may leave it) makes [hit_wall] raise [KeyError] as soon as the
    new health is positive and at most 0.66: the state is then looked up
    with [self.wall_states[wall_key]]. *)
Theorem hit_wall_without_state_raises (cfg : Config) (rt : Runtime)
    (w : World) (g : Rng rt) (k : WallKey) (d h : float) :
  k ∉ destroyed_walls w →
  wall_health w !! k = Some h → wall_states w !! k = None →
  (h - d <=? 0.0)%float = false → (h - d <=? 0.66)%float = true →
  hit_wall cfg rt w g k d = None.
Proof.
  intros Hk Hh Hs Hpos Hlow. unfold hit_wall.
  rewrite bool_decide_eq_false_2 by done. rewrite Hh.
  assert (∀ v, wall_states (set_wall_health v w) !! k = None) as Hst
    by (intros v; by destruct w).
  assert (∀ v, wall_health (set_wall_health (<[k := v]> (wall_health w)) w) !! k = Some v) as Hhv
    by (intros v; destruct w; simpl; by rewrite lookup_insert_eq).
  simpl. rewrite ?Hh. simpl. rewrite Hpos, Hlow, !Hst. simpl.
  by destruct (_ <=? 0.33)%float.
Qed.

Lemma hit_wall_without_state_raises_witness :
  hit_wall Fixture.cfg (Fixture.rt 0.5)
    (set_wall_health {[Fixture.wall := 0.5%float]} (new_World 7)) tt Fixture.wall 0.25
  = None.
Proof.
  apply (hit_wall_without_state_raises Fixture.cfg (Fixture.rt 0.5) _ tt Fixture.wall
           0.25 0.5); try reflexivity.
  apply not_elem_of_empty.
Defined.

(** In a world where every wall with a health entry has a state entry (a
    new world is one), [hit_wall] on a key within float range does not
    raise, and both [hit_wall] and [destroy_wall] hand back such a world. *)
Theorem damage_keeps_states_covering (cfg : Config) (rt : Runtime)
    (w : World) (g : Rng rt) (k : WallKey) (d : float) (snd : bool) :
  wall_in_range cfg k →
  states_cover_health w →
  (∃ r w' g' ev,
     hit_wall cfg rt w g k d = Some (r, w', g', ev) ∧ states_cover_health w') ∧
  states_cover_health (destroy_wall cfg rt w g k snd).1.1.
Proof.
  intros _ Hinv. split.
  - assert (∃ res, hit_wall cfg rt w g k d = Some res) as [[[[r w'] g'] ev] Hcall].
    { destruct (decide (k ∈ destroyed_walls w)) as [Hk|Hk];
        [rewrite (hit_wall_destroyed cfg rt w g k d Hk); by eexists|].
      destruct (health_before w k - d <=? 0)%float eqn:Hh.
      - destruct (hit_wall_kills cfg rt w g k d Hk Hh) as (w' & g' & -> & _). by eexists.
      - assert (∃ s, state_before w k = Some s) as [s Hs].
        { unfold state_before. destruct (wall_health w !! k) eqn:E; [|by eexists].
          apply Hinv. by rewrite E. }
        destruct (hit_wall_survives cfg rt w g k d s Hk Hs Hh) as (w' & g' & ev & -> & _).
        by eexists. }
    exists r, w', g', ev. split; [done|].
    destruct (hit_wall_frame cfg rt _ _ _ _ _ _ _ _ Hcall)
      as [(_ & -> & _)|(_ & _ & _ & _ & [h Hh] & Hs & _)]; [done|].
    intros k' Hk'. rewrite Hh in Hk'.
    destruct Hs as [[-> Hsome]|[s ->]].
    + destruct (decide (k' = k)) as [->|Hne]; [by apply Hinv|].
      rewrite lookup_insert_ne in Hk' by done. by apply Hinv.
    + destruct (decide (k' = k)) as [->|Hne]; [by rewrite lookup_insert_eq|].
      rewrite lookup_insert_ne in Hk' by done.
      rewrite lookup_insert_ne by done. by apply Hinv.
  - destruct (decide (k ∈ destroyed_walls w)) as [Hk|Hk].
    + unfold destroy_wall. by rewrite bool_decide_eq_true_2.
    + destruct (destroy_wall_changes cfg rt w g k snd Hk) as (pieces & g' & -> & _).
      intros k' Hk'. destruct w; simpl in *.
      destruct (decide (k' = k)) as [->|Hne]; [by rewrite lookup_insert_eq|].
      rewrite lookup_insert_ne in Hk' by done.
      rewrite lookup_insert_ne by done. by apply Hinv.
Qed.

Lemma damage_keeps_states_covering_witness :
  ∃ r w' g' ev,
    hit_wall Fixture.cfg (Fixture.rt 0.5) (new_World 7) tt Fixture.wall 0.25
      = Some (r, w', g', ev) ∧ states_cover_health w'.
Proof.
  apply (damage_keeps_states_covering Fixture.cfg (Fixture.rt 0.5) (new_World 7) tt
           Fixture.wall 0.25 false); [in_range|].
  intros k [h Hh]. simpl in Hh. by rewrite lookup_empty in Hh.
Defined.

(** [destroy_wall] on a standing wall within float range puts it in the
    destroyed set with
    the state DESTROYED and the stored health 0.0, appends 150 debris
    particles and emits WALL_DESTROYED (and plays the sound when one was
    given); after it a second [destroy_wall] and any [hit_wall] of that
    wall change nothing and emit nothing. *)
Theorem destroy_wall_once (cfg : Config) (rt : Runtime)
    (w : World) (g : Rng rt) (k : WallKey) (snd : bool) :
  wall_in_range cfg k →
  k ∉ destroyed_walls w →
  ∃ w' g',
    destroy_wall cfg rt w g k snd
      = (w', g', WALL_DESTROYED k (_get_wall_center cfg k)
                   :: (if snd then [SOUND_PLAYED] else [])) ∧
    destroyed_walls w' = {[k]} ∪ destroyed_walls w ∧
    wall_states w' !! k = Some DESTROYED ∧
    wall_health w' !! k = Some 0.0%float ∧
    length (debris_pieces w') = (length (debris_pieces w) + 150)%nat ∧
    debris_pieces w `prefix_of` debris_pieces w' ∧
    (∀ g2 snd2, destroy_wall cfg rt w' g2 k snd2 = (w', g2, [])) ∧
    (∀ g2 d, hit_wall cfg rt w' g2 k d = Some (false, w', g2, [])).
Proof.
  intros _ Hk.
  destruct (destroy_wall_changes cfg rt w g k snd Hk) as (pieces & g' & -> & Hlen & Hpre).
  eexists _, g'. split; [reflexivity|].
  assert (∀ p, k ∈ destroyed_walls
            (set_debris_pieces p
               (set_wall_health (<[k:=0%float]> (wall_health w))
                  (set_wall_states (<[k:=DESTROYED]> (wall_states w))
                     (set_destroyed_walls ({[k]} ∪ destroyed_walls w) w))))) as Hin.
  { intros p. destruct w; simpl. apply elem_of_union_l, elem_of_singleton_2. reflexivity. }
  repeat split.
  - by destruct w.
  - destruct w; simpl. by rewrite lookup_insert_eq.
  - destruct w; simpl. by rewrite lookup_insert_eq.
  - by destruct w.
  - by destruct w.
  - intros g2 snd2. unfold destroy_wall. by rewrite bool_decide_eq_true_2.
  - intros g2 d. by apply hit_wall_destroyed.
Qed.

Lemma destroy_wall_once_witness :
  ∃ w' g',
    destroy_wall Fixture.cfg (Fixture.rt 0.5) (new_World 7) tt Fixture.wall true
      = (w', g', [WALL_DESTROYED Fixture.wall (_get_wall_center Fixture.cfg Fixture.wall);
                  SOUND_PLAYED]) ∧
    length (debris_pieces w') = 150%nat ∧
    hit_wall Fixture.cfg (Fixture.rt 0.5) w' tt Fixture.wall 0.25 = Some (false, w', tt, []).
Proof.
  destruct (destroy_wall_once Fixture.cfg (Fixture.rt 0.5) (new_World 7) tt Fixture.wall true)
    as (w' & g' & Hcall & _ & _ & _ & Hlen & _ & _ & Hhit).
  - in_range.
  - apply not_elem_of_empty.
  - exists w', g'. split; [exact Hcall|]. split; [exact Hlen|]. apply Hhit.
Defined.

(** ** What the spawners append to the pool *)

Section Spawners.

Context (cfg : Config) (rt : Runtime).

(** [n] rounds of a maker whose particles all satisfy [P] append [n]
    particles that satisfy [P] behind the pool. *)
Lemma append_particles_spec (P : Debris → Prop) (make : Rng rt → Debris * Rng rt)
    (n : nat) (pieces : list Debris) (g : Rng rt) :
  (∀ g0, P (make g0).1) →
  ∃ new, (append_particles rt make n pieces g).1 = pieces ++ new ∧
         length new = n ∧ Forall P new.
Proof.
  intros HP. revert pieces g. induction n as [|n IH]; intros pieces g; simpl.
  - exists []. by rewrite app_nil_r.
  - pose proof (HP g) as Hd. destruct (make g) as [d g1]. simpl in Hd.
    destruct (IH (pieces ++ [d]) g1) as (new & -> & Hlen & Hall).
    exists (d :: new). rewrite <- app_assoc. simpl. by repeat split; [lia|constructor].
Qed.

(** The loop of [spawn_wall_debris] is such a run. *)
Lemma spawn_particles_append (n : nat) (k : WallKey) (pieces : list Debris) (g : Rng rt) :
  spawn_particles cfg rt n k pieces g
    = append_particles rt (wall_debris_particle cfg rt k) n pieces g.
Proof.
  revert pieces g. induction n as [|n IH]; intros pieces g; simpl; [done|].
  destruct (wall_debris_particle cfg rt k g) as [d g1]. apply IH.
Qed.

Lemma clamp_byte (c : Z) : 0 ≤ Z.max 0 (Z.min 255 c) ≤ 255.
Proof. lia. Qed.

End Spawners.

(** For a key within float range, [spawn_wall_debris] appends 150
    particles behind the pool, each constructed with a velocity (so it
    starts unsettled) and with a colour whose channels were clamped to
    0..255. *)
Theorem wall_debris_is_clamped (cfg : Config) (rt : Runtime)
    (w : World) (g : Rng rt) (k : WallKey) :
  wall_in_range cfg k →
  ∃ new,
    debris_pieces (spawn_wall_debris cfg rt w g k).1 = debris_pieces w ++ new ∧
    length new = 150%nat ∧
    Forall (λ d, ∃ pos col vel, d = Debris_init rt pos col (Some vel) ∧ byte_color col) new.
Proof.
  intros _. unfold spawn_wall_debris. rewrite spawn_particles_append.
  destruct (append_particles_spec rt
              (λ d, ∃ pos col vel, d = Debris_init rt pos col (Some vel) ∧ byte_color col)
              (wall_debris_particle cfg rt k) 150 (debris_pieces w) g) as (new & Hnew & Hrest).
  - intros g0. unfold wall_debris_particle, uniform, uniform_int, randint.
    destruct k as [[x1 z1] [x2 z2]].
    repeat match goal with |- context [rng_random rt ?g1] => destruct (rng_random rt g1) end.
    destruct (rng_randbelow rt _ _) as [n g1]. destruct (WALL_COLOR cfg) as [[cr cg] cb].
    destruct (x1 =? x2); simpl; eexists _, _, _; (split; [reflexivity|]);
      repeat split; apply clamp_byte.
  - exists new. split; [|done].
    destruct (append_particles rt _ 150 _ g) as [pieces g1]. simpl in *. by destruct w.
Qed.

Lemma wall_debris_is_clamped_witness :
  ∃ new,
    debris_pieces (spawn_wall_debris Fixture.cfg (Fixture.rt 0.5) (new_World 7) tt
                     Fixture.wall).1 = new ∧
    length new = 150%nat.
Proof.
  destruct (wall_debris_is_clamped Fixture.cfg (Fixture.rt 0.5) (new_World 7) tt Fixture.wall)
    as (new & Hnew & Hlen & _); [in_range|].
  exists new. split; [exact Hnew|exact Hlen].
Defined.

(** [destroy_pillar] on a pillar key within float range that is not in
    the destroyed set:
    the key joins the set, 200 particles are appended behind the pool and
    nothing else in the world changes; PILLAR_DESTROYED carries the centre
    of the pillar (and the sound is played when one was given).  Each
    particle is constructed at the corner [(px, pz)] of the key itself,
    whatever offsets were drawn, with a velocity and a colour clamped to
    0..255. *)
Theorem destroy_pillar_drops_debris_at_corner (cfg : Config) (rt : Runtime)
    (float_pow : float → float → float)
    (w : World) (g : Rng rt) (key : Point) (snd : bool) :
  pillar_in_range cfg key →
  key ∉ destroyed_pillars w →
  ∃ new g',
    destroy_pillar cfg rt float_pow w g key snd
      = (set_debris_pieces (debris_pieces w ++ new)
           (set_destroyed_pillars ({[key]} ∪ destroyed_pillars w) w),
         g',
         PILLAR_DESTROYED key
             ((Py.float_of_int key.1 + Py.int_truediv (PILLAR_SIZE cfg) 2)%float,
              ((get_scaled_floor_y cfg + get_scaled_wall_height cfg) / 2)%float,
              (Py.float_of_int key.2 + Py.int_truediv (PILLAR_SIZE cfg) 2)%float)
           :: (if snd then [PILLAR_SOUND_PLAYED] else [])) ∧
    length new = 200%nat ∧
    Forall (λ d, ∃ py col vel,
                d = Debris_init rt (Py.float_of_int key.1, py, Py.float_of_int key.2)
                      col (Some vel) ∧
                byte_color col) new.
Proof.
  intros _ Hk. unfold destroy_pillar. rewrite bool_decide_eq_false_2 by done.
  destruct key as [px pz].
  match goal with |- context [append_particles rt ?mk 200 ?p g] =>
    destruct (append_particles_spec rt
                (λ d, ∃ py col vel,
                   d = Debris_init rt (Py.float_of_int px, py, Py.float_of_int pz)
                         col (Some vel) ∧ byte_color col) mk 200 p g)
      as (new & Hnew & Hlen & Hall);
    [|destruct (append_particles rt mk 200 p g) as [pieces g1]]
  end.
  - intros g0. unfold pillar_debris_particle, uniform, uniform_int, randint.
    repeat match goal with |- context [rng_random rt ?g1] => destruct (rng_random rt g1) end.
    destruct (rng_randbelow rt _ _) as [n g1]. destruct (PILLAR_COLOR cfg) as [[cr cg] cb].
    simpl. eexists _, _, _. split; [reflexivity|]. repeat split; apply clamp_byte.
  - simpl in Hnew. subst pieces. exists new, g1. split; [|done]. by destruct w.
Qed.

Lemma destroy_pillar_drops_debris_at_corner_witness :
  ∃ new g',
    (destroy_pillar Fixture.cfg (Fixture.rt 0.5) pow_square (new_World 7) tt
       (200, 200) false).1
      = (set_debris_pieces new (set_destroyed_pillars {[(200, 200)]} (new_World 7)), g') ∧
    length new = 200%nat.
Proof.
  destruct (destroy_pillar_drops_debris_at_corner Fixture.cfg (Fixture.rt 0.5) pow_square
              (new_World 7) tt (200, 200) false) as (new & g' & Hcall & Hlen & _).
  - in_range.
  - apply not_elem_of_empty.
  - exists new, g'. rewrite Hcall. split; [|exact Hlen]. simpl.
    by rewrite union_empty_r_L.
Defined.

(** [destroy_pillar] acts once per key: whatever world it is called in,
    the key is in the destroyed set afterwards, no other key has left or
    joined it, and a further call with that key changes nothing, draws
    nothing from the generator and emits nothing.  No pillar has to stand
    at the key for it to be destroyed. *)
Theorem destroy_pillar_once (cfg : Config) (rt : Runtime)
    (float_pow : float → float → float)
    (w : World) (g : Rng rt) (key : Point) (snd : bool) :
  let w' := (destroy_pillar cfg rt float_pow w g key snd).1.1 in
  is_pillar_destroyed w' key = true ∧
  destroyed_pillars w' = {[key]} ∪ destroyed_pillars w ∧
  (∀ g2 snd2, destroy_pillar cfg rt float_pow w' g2 key snd2 = (w', g2, [])) ∧
  (key ∈ destroyed_pillars w → destroy_pillar cfg rt float_pow w g key snd = (w, g, [])).
Proof.
  intros w'.
  assert (destroyed_pillars w' = {[key]} ∪ destroyed_pillars w) as Hset.
  { subst w'. destruct (decide (key ∈ destroyed_pillars w)) as [Hk|Hk].
    - unfold destroy_pillar. rewrite bool_decide_eq_true_2 by done. simpl.
      apply set_eq. intros p. rewrite elem_of_union, elem_of_singleton.
      split; [by right|]. by intros [->|?].
    - unfold destroy_pillar. rewrite bool_decide_eq_false_2 by done.
      destruct key as [px pz]. destruct (append_particles rt _ 200 _ g) as [pieces g1].
      by destruct w. }
  assert (key ∈ destroyed_pillars w') as Hin.
  { rewrite Hset. apply elem_of_union_l, elem_of_singleton_2. reflexivity. }
  split; [by apply bool_decide_eq_true_2|]. split; [done|]. split.
  - intros g2 snd2. unfold destroy_pillar at 1. by rewrite bool_decide_eq_true_2.
  - intros Hk. unfold destroy_pillar. by rewrite bool_decide_eq_true_2.
Qed.

(** [spawn_rubble_pile] for a wall within float range that has no rubble
    mark: the wall key is
    marked, 80 particles are appended behind the pool and nothing else in
    the world changes (the wall need not be destroyed and is not made so).
    Each particle is constructed at floor level with [velocity=None], so
    settled from the start, and with a colour clamped to 0..255. *)
Theorem rubble_pile_is_settled_at_floor (cfg : Config) (rt : Runtime)
    (w : World) (g : Rng rt) (x1 z1 x2 z2 : Z) :
  rubble_in_range cfg x1 z1 x2 z2 →
  sorted_pair (x1, z1) (x2, z2) ∉ _spawned_rubble w →
  ∃ new g',
    spawn_rubble_pile cfg rt w g x1 z1 x2 z2
      = (set_debris_pieces (debris_pieces w ++ new)
           (set_spawned_rubble ({[sorted_pair (x1, z1) (x2, z2)]} ∪ _spawned_rubble w) w),
         g') ∧
    length new = 80%nat ∧
    Forall (λ d, ∃ px pz col,
                d = Debris_init rt (px, get_scaled_floor_y cfg, pz) col None ∧
                byte_color col) new.
Proof.
  intros _ Hk. unfold spawn_rubble_pile. rewrite bool_decide_eq_false_2 by done.
  match goal with |- context [append_particles rt ?mk 80 ?p g] =>
    destruct (append_particles_spec rt
                (λ d, ∃ px pz col,
                   d = Debris_init rt (px, get_scaled_floor_y cfg, pz) col None ∧
                   byte_color col) mk 80 p g)
      as (new & Hnew & Hlen & Hall);
    [|destruct (append_particles rt mk 80 p g) as [pieces g1]]
  end.
  - intros g0. unfold rubble_particle, uniform, uniform_int, randint.
    destruct (x1 =? x2);
      repeat match goal with |- context [rng_random rt ?g1] => destruct (rng_random rt g1) end;
      destruct (rng_randbelow rt _ _) as [n g1];
      simpl; eexists _, _, _; (split; [reflexivity|]); repeat split; apply clamp_byte.
  - simpl in Hnew. subst pieces. exists new, g1. split; [|done]. by destruct w.
Qed.

Lemma rubble_pile_is_settled_at_floor_witness :
  ∃ new g',
    spawn_rubble_pile Fixture.cfg (Fixture.rt 0.5) (new_World 7) tt 400 0 0 0
      = (set_debris_pieces new (set_spawned_rubble {[Fixture.wall]} (new_World 7)), g') ∧
    length new = 80%nat.
Proof.
  destruct (rubble_pile_is_settled_at_floor Fixture.cfg (Fixture.rt 0.5)
              (new_World 7) tt 400 0 0 0) as (new & g' & Hcall & Hlen & _).
  - in_range.
  - apply not_elem_of_empty.
  - exists new, g'. rewrite Hcall. split; [|exact Hlen]. simpl.
    by rewrite union_empty_r_L.
Defined.

(** A rubble pile is spawned once per wall: after a call for a pair of
    grid points, a further call for that pair, in either order of the
    points, changes nothing and draws nothing from the generator. *)
Theorem rubble_pile_once (cfg : Config) (rt : Runtime)
    (w : World) (g : Rng rt) (x1 z1 x2 z2 : Z) :
  let w' := (spawn_rubble_pile cfg rt w g x1 z1 x2 z2).1 in
  sorted_pair (x1, z1) (x2, z2) ∈ _spawned_rubble w' ∧
  (∀ g2, spawn_rubble_pile cfg rt w' g2 x1 z1 x2 z2 = (w', g2)) ∧
  (∀ g2, spawn_rubble_pile cfg rt w' g2 x2 z2 x1 z1 = (w', g2)).
Proof.
  intros w'.
  assert (sorted_pair (x1, z1) (x2, z2) ∈ _spawned_rubble w') as Hin.
  { subst w'. destruct (decide (sorted_pair (x1, z1) (x2, z2) ∈ _spawned_rubble w)) as [Hk|Hk].
    - unfold spawn_rubble_pile. by rewrite bool_decide_eq_true_2.
    - unfold spawn_rubble_pile. rewrite bool_decide_eq_false_2 by done.
      destruct (append_particles rt _ 80 _ g) as [pieces g1]. destruct w; simpl.
      apply elem_of_union_l, elem_of_singleton_2. reflexivity. }
  split; [done|]. split; intros g2; unfold spawn_rubble_pile at 1.
  - by rewrite bool_decide_eq_true_2.
  - rewrite (sorted_pair_comm (x2, z2) (x1, z1)). by rewrite bool_decide_eq_true_2.
Qed.

(** ** The pool only shrinks under updates *)

(** [update_debris] changes the debris pool and nothing else, and the
    pool never grows: every particle it keeps is the update of one it
    had. *)
Theorem update_debris_only_shrinks_pool (cfg : Config) (rt : Runtime)
    (w : World) (dt player_x player_z : float) :
  let w' := update_debris cfg rt w dt player_x player_z in
  w' = set_debris_pieces (debris_pieces w') w ∧
  (length (debris_pieces w') ≤ length (debris_pieces w))%nat ∧
  (debris_pieces w = [] → w' = w).
Proof.
  intros w'. subst w'. unfold update_debris.
  set (l := List.filter active _).
  assert (length l ≤ length (debris_pieces w))%nat as Hl.
  { subst l. etrans; [apply filter_length_le|]. by rewrite length_fmap. }
  split; [by destruct w|]. split.
  - destruct (_ <? _)%nat; destruct w; simpl in *; [|done].
    rewrite length_drop. lia.
  - intros Hnil. subst l. rewrite Hnil. simpl. by destruct w; simpl in *; subst.
Qed.

(** ** More on loading *)





(** The debris of a saved world after a load: provided [eval] gives back
    the keys that [str] wrote, the pool of the loading world is replaced
    by the first 1000 active particles of the saved world, in pool order,
    each constructed anew from its saved position and colour, with its
    saved velocity when it was not settled and with [velocity=None] when
    it was; inactive particles and those behind the first 1000 are gone. *)
Theorem save_load_rebuilds_debris (rt : Runtime) (w w0 : World) :
  (∀ k, py_eval_wall rt (repr_wall k) = Some k) →
  (∀ p, py_eval_point rt (repr_point p) = Some p) →
  ∃ w',
    load_state rt w0 (get_state_for_save w) = Returned w' ∧
    debris_pieces w'
      = (λ d, Debris_init rt (cx d, cy d, cz d) (color d)
                (if is_settled d then None else Some (vx d, vy d, vz d)))
        <$> take 1000 (List.filter active (debris_pieces w)) ∧
    (length (debris_pieces w') ≤ 1000)%nat.
Proof.
  intros Hwall Hpoint. unfold load_state, get_state_for_save.
  cbn [doc_seed doc_wall_cache doc_pillar_cache doc_destroyed_walls
       doc_destroyed_pillars doc_destroyed_lamps doc_triggered_traps
       doc_wall_states doc_wall_health doc_wall_cracks doc_pre_damaged_walls
       doc_debris_pieces default from_option].
  repeat match goal with |- context [id ?x] => change (id x) with x end.
  rewrite !(eval_entries_str_items (py_eval_wall rt) Some repr_wall id) by done.
  rewrite (eval_entries_str_items (py_eval_point rt) Some repr_point id) by done.
  rewrite (eval_entries_str_items (py_eval_wall rt) WallState_of_name repr_wall
             WallState_name) by (done || apply WallState_of_name_name).
  cbn [negb].
  eexists. split; [reflexivity|].
  assert (∀ l : list Debris,
            load_debris rt <$> take 1000 (debris_dict <$> l)
            = (λ d, Debris_init rt (cx d, cy d, cz d) (color d)
                      (if is_settled d then None else Some (vx d, vy d, vz d)))
              <$> take 1000 l) as Hre.
  { intros l. rewrite <- fmap_take, <- list_fmap_compose. apply list_fmap_ext.
    intros i d _. unfold load_debris, debris_dict. simpl. by destruct (is_settled d). }
  destruct w, w0; cbn. rewrite Hre. split; [done|].
  rewrite length_fmap, length_take. lia.
Qed.

Lemma save_load_rebuilds_debris_witness :
  ∃ w',
    load_state (Fixture.rt 0.5) Fixture.ruined (get_state_for_save Fixture.crowded)
      = Returned w' ∧
    (length (debris_pieces w') ≤ 1000)%nat.
Proof.
  destruct (save_load_rebuilds_debris (Fixture.rt 0.5) Fixture.crowded Fixture.ruined
              eval_wall_repr eval_point_repr) as (w' & Hload & _ & Hlen).
  by exists w'.
Defined.







(** ** More on collision queries *)

Lemma SFcompare_Lt_Gt (a b : SpecFloat.spec_float) :
  SpecFloat.SFcompare a b = Some Lt → SpecFloat.SFcompare b a = Some Gt.
Proof.
  destruct a as [s1|s1| |s1 m1 e1], b as [s2|s2| |s2 m2 e2]; simpl;
    try destruct s1; try destruct s2; try done.
  all: rewrite (Z.compare_antisym e1 e2);
    change (PosDef.Pos.compare_cont Eq m2 m1) with (Pos.compare m2 m1);
    change (PosDef.Pos.compare_cont Eq m1 m2) with (Pos.compare m1 m2);
    rewrite (Pos.compare_antisym m1 m2);
    destruct (Z.compare e1 e2); simpl; try done;
    by destruct (Pos.compare m1 m2).
Qed.

(** [x < y] excludes [y <= x] on floats. *)
Lemma float_ltb_not_leb (x y : float) : (x <? y)%float = true → (y <=? x)%float = false.
Proof.
  rewrite FloatAxioms.ltb_spec, FloatAxioms.leb_spec.
  unfold SpecFloat.SFltb, SpecFloat.SFleb.
  destruct (SpecFloat.SFcompare (FloatOps.Prim2SF x) (FloatOps.Prim2SF y)) as [[]|] eqn:E;
    try done.
  intros _. by rewrite (SFcompare_Lt_Gt _ _ E).
Qed.

(** A position with a coordinate that is not finite (an infinity or NaN)
    collides, and the query touches nothing: no cell is scanned and no
    cache entry is made. *)
Theorem non_finite_position_collides (cfg : Config) (rt : Runtime)
    (w : World) (x z : float) :
  is_finite x = false ∨ is_finite z = false →
  check_collision cfg rt w x z = (true, w).
Proof.
  intros Hbad. unfold check_collision.
  by destruct Hbad as [-> | ->]; rewrite ?orb_true_r.
Qed.

Lemma non_finite_position_collides_witness :
  check_collision Fixture.cfg (Fixture.rt 0.5) (new_World 7) nan 0 = (true, new_World 7) ∧
  check_collision Fixture.cfg (Fixture.rt 0.5) (new_World 7) 0 infinity
    = (true, new_World 7).
Proof.
  split; apply non_finite_position_collides; [left|right]; reflexivity.
Defined.

(** A wall is solid only within its thickness: a position whose distance
    across the wall is not below half the thickness plus the player radius
    is not blocked, with or without an opening.  And a wall with an opening
    does not block along the whole band that starts one player radius
    before the opening and ends one radius behind it. *)
Theorem wall_stops_only_near_and_beside_opening (cfg : Config)
    (opening_width wall_start wall_pos : Z) (along across : float) :
  let half_thick := Py.int_truediv (WALL_THICKNESS cfg) 2 in
  let opening_start :=
    (Py.float_of_int wall_start
     + Py.int_truediv (Z.pos (PILLAR_SPACING cfg) - opening_width) 2)%float in
  let opening_end := (opening_start + Py.float_of_int opening_width)%float in
  ((abs (across - Py.float_of_int wall_pos) <? half_thick + player_radius)%float = false →
   wall_blocks cfg opening_width wall_start wall_pos along across = false) ∧
  (0 < opening_width →
   (opening_start - player_radius <? along)%float = true →
   (along <? opening_end + player_radius)%float = true →
   wall_blocks cfg opening_width wall_start wall_pos along across = false).
Proof.
  intros half_thick opening_start opening_end. unfold wall_blocks.
  fold half_thick opening_start. fold opening_end. split.
  - intros ->. destruct (0 <? opening_width); [done|]. apply andb_false_r.
  - intros Hw Hlo Hhi. apply Z.ltb_lt in Hw. rewrite Hw.
    apply float_ltb_not_leb in Hlo, Hhi. rewrite Hlo, Hhi.
    by rewrite andb_false_r, andb_false_l, andb_false_r.
Qed.

Lemma wall_stops_only_near_and_beside_opening_witness :
  wall_blocks Fixture.cfg 60 0 0 160 0 = false ∧
  wall_blocks Fixture.cfg 60 0 0 240 0 = false ∧
  wall_blocks Fixture.cfg 60 0 0 200 30 = false.
Proof.
  split; [|split].
  - destruct (wall_stops_only_near_and_beside_opening Fixture.cfg 60 0 0 160 0) as [_ H].
    apply H; [done|reflexivity|reflexivity].
  - destruct (wall_stops_only_near_and_beside_opening Fixture.cfg 60 0 0 240 0) as [_ H].
    apply H; [done|reflexivity|reflexivity].
  - destruct (wall_stops_only_near_and_beside_opening Fixture.cfg 60 0 0 200 30) as [H _].
    apply H. reflexivity.
Defined.

(** Pillars stand only on the lattice: a first query about a point answers
    [True] only when pillars are enabled and both coordinates are at the
    centre offset of the pillar spacing; in the mode "all" every such
    point has a pillar. *)
Theorem pillars_stand_on_the_lattice (cfg : Config) (rt : Runtime)
    (w : World) (px pz : Z) :
  pillar_cache w !! (px, pz) = None →
  let spacing := Z.pos (PILLAR_SPACING cfg) in
  let on_lattice := px mod spacing = spacing / 2 ∧ pz mod spacing = spacing / 2 in
  ((has_pillar_at cfg rt w px pz).1 = true → PILLAR_MODE cfg ≠ "none" ∧ on_lattice) ∧
  (PILLAR_MODE cfg = "all" → on_lattice → (has_pillar_at cfg rt w px pz).1 = true).
Proof.
  intros Hnone spacing on_lattice. subst on_lattice. unfold has_pillar_at. rewrite Hnone.
  fold spacing. split.
  - destruct (String.eqb_spec (PILLAR_MODE cfg) "none") as [Hm|Hm]; [done|].
    destruct (Z.eqb_spec (px mod spacing) (spacing / 2)),
             (Z.eqb_spec (pz mod spacing) (spacing / 2)); simpl; done.
  - intros Hall [Hx Hz]. rewrite Hall, Hx, Hz. simpl. by rewrite !Z.eqb_refl.
Qed.

Lemma pillars_stand_on_the_lattice_witness :
  let cfg := mkConfig 400 80 "all" 20 2000 120 (200, 190, 150) (100, 100, 100) 100 0 in
  (has_pillar_at cfg (Fixture.rt 0.5) (new_World 7) 200 200).1 = true.
Proof.
  intros cfg.
  apply (pillars_stand_on_the_lattice cfg (Fixture.rt 0.5) (new_World 7) 200 200);
    [reflexivity|reflexivity|]. split; reflexivity.
Defined.

(** ** Answers of the collision query are final *)

Section Exploration.

Context (cfg : Config) (rt : Runtime).

Lemma explores_refl (w : World) : explores rt w w.
Proof.
  constructor; [apply discovers_refl|by intros k Hin Hout|].
  intros zone props Hsome Hnone. congruence.
Qed.

Lemma explores_trans (w1 w2 w3 : World) :
  explores rt w1 w2 → explores rt w2 w3 → explores rt w1 w3.
Proof.
  intros [D12 K12 Z12] [D23 K23 Z23]. constructor.
  - by eapply discovers_trans.
  - intros k Hin Hout. destruct (decide (k ∈ destroyed_walls w2)) as [Hmid|Hmid].
    + by apply K12.
    + pose proof (K23 k Hin Hmid) as Hnone.
      destruct (wall_cache w1 !! k) as [b|] eqn:E; [|done].
      eapply lookup_weaken in E; [|apply D12]. congruence.
  - intros zone props Hsome Hnone.
    destruct (zone_cache w2 !! zone) as [p2|] eqn:E.
    + pose proof (Z12 zone p2 E Hnone) as ->.
      eapply lookup_weaken in E; [|apply D23]. congruence.
    + rewrite <- (disc_seed _ _ D12). by apply Z23.
Qed.

Lemma roll_pre_damage_explores (w : World) key x1 z1 x2 z2 :
  pre_damaged_walls w !! key = None → wall_cache w !! key = None →
  explores rt w (roll_pre_damage cfg rt w key x1 z1 x2 z2).
Proof.
  intros Hnone Hcache. constructor; [by apply roll_pre_damage_discovers| |].
  - intros k Hin Hout.
    assert (k = key) as ->; [|done].
    revert Hin. unfold roll_pre_damage.
    match goal with |- context [get_zone_properties rt w ?a ?b] =>
      destruct (get_zone_properties_zone_cache rt w a b) as (zc & Hw1 & _);
      destruct (get_zone_properties rt w a b) as [props w1] end.
    simpl in Hw1. subst w1. destruct (rng_random rt _) as [r rng].
    destruct (r <? _)%float; [destruct (_ <? 0.2)%float|]; destruct w; simpl in *;
      try (by intros ?).
    rewrite elem_of_union, elem_of_singleton. by intros [?|?].
  - intros zone props. unfold roll_pre_damage, get_zone_properties.
    set (zx := (get_zone_at cfg _ _).1). set (zz := (get_zone_at cfg _ _).2).
    destruct (zone_cache w !! (zx, zz)) as [p0|] eqn:E; simpl.
    + destruct (rng_random rt _) as [r rng].
      destruct (r <? _)%float; [destruct (_ <? 0.2)%float|]; destruct w; simpl in *;
        congruence.
    + destruct (rng_random rt _) as [r rng].
      assert (∀ w2 : World, zone_cache w2 = <[(zx, zz) := zone_properties rt zx zz (world_seed w)]> (zone_cache w) →
                zone_cache w2 !! zone = Some props → zone_cache w !! zone = None →
                props = zone_properties rt zone.1 zone.2 (world_seed w)) as Hins.
      { intros w2 -> Hsome Hz. destruct (decide (zone = (zx, zz))) as [->|Hne].
        - rewrite lookup_insert_eq in Hsome. by simplify_eq.
        - rewrite lookup_insert_ne in Hsome by done. congruence. }
      destruct (r <? _)%float; [destruct (_ <? 0.2)%float|]; apply Hins; by destruct w.
Qed.

Lemma has_wall_between_explores (w : World) x1 z1 x2 z2 :
  explores rt w (has_wall_between cfg rt w x1 z1 x2 z2).2.
Proof.
  pose proof (has_wall_between_discovers cfg rt w x1 z1 x2 z2) as Hd.
  revert Hd. unfold has_wall_between.
  set (key := sorted_pair (x1, z1) (x2, z2)).
  destruct (wall_cache w !! key) eqn:Hcache; simpl; [intros _; apply explores_refl|].
  destruct (negb _); simpl.
  - intros Hd. constructor; [done| |]; destruct w; simpl in *; [by intros k ? ?|congruence].
  - set (w1 := match pre_damaged_walls w !! key with Some _ => w | None => _ end).
    assert (explores rt w w1) as [D K Z].
    { subst w1. destruct (pre_damaged_walls w !! key) eqn:E;
        [apply explores_refl | by apply roll_pre_damage_explores]. }
    clearbody w1. intros Hd. constructor; [done| |]; destruct w1; simpl in *; [apply K|apply Z].
Qed.

Lemma has_pillar_at_explores (w : World) px pz :
  explores rt w (has_pillar_at cfg rt w px pz).2.
Proof.
  pose proof (has_pillar_at_discovers cfg rt w px pz) as Hd.
  constructor; [done| |]; revert Hd; unfold has_pillar_at;
    destruct (pillar_cache w !! (px, pz)); simpl;
    repeat match goal with |- context [if ?c then _ else _] => destruct c end;
    destruct w; simpl; intros _; try (by intros k ? ?); congruence.
Qed.

Lemma check_wall_world (w : World) x1 z1 x2 z2 along across wall_start wall_pos :
  (check_wall cfg rt w x1 z1 x2 z2 along across wall_start wall_pos).2
    = (has_wall_between cfg rt w x1 z1 x2 z2).2.
Proof.
  unfold check_wall. destruct (has_wall_between cfg rt w x1 z1 x2 z2) as [[] w1]; [|done].
  simpl. case_bool_decide; [done|]. by destruct (wall_blocks _ _ _ _ _ _).
Qed.

Lemma check_wall_explores (w : World) x1 z1 x2 z2 along across wall_start wall_pos :
  explores rt w (check_wall cfg rt w x1 z1 x2 z2 along across wall_start wall_pos).2.
Proof. rewrite check_wall_world. apply has_wall_between_explores. Qed.

Lemma check_cell_explores (w : World) x z px_grid pz_grid :
  explores rt w (check_cell cfg rt w x z px_grid pz_grid).2.
Proof.
  unfold check_cell.
  match goal with |- context [check_wall cfg rt w ?a ?b ?c ?d ?e ?f ?g ?h] =>
    pose proof (check_wall_explores w a b c d e f g h) as H1;
    destruct (check_wall cfg rt w a b c d e f g h) as [flow1 w1] end.
  simpl in H1. destruct flow1; try done.
  match goal with |- context [check_wall cfg rt w1 ?a ?b ?c ?d ?e ?f ?g ?h] =>
    pose proof (check_wall_explores w1 a b c d e f g h) as H2;
    destruct (check_wall cfg rt w1 a b c d e f g h) as [flow2 w2] end.
  simpl in H2. pose proof (explores_trans _ _ _ H1 H2) as H12.
  destruct flow2; try done.
  match goal with |- context [has_pillar_at cfg rt w2 ?a ?b] =>
    pose proof (has_pillar_at_explores w2 a b) as H3;
    destruct (has_pillar_at cfg rt w2 a b) as [has_pillar w3] end.
  simpl in H3. pose proof (explores_trans _ _ _ H12 H3) as H123.
  by destruct (_ && _).
Qed.

Lemma scan_z_explores (w : World) x z px_grid zs :
  explores rt w (scan_z cfg rt w x z px_grid zs).2.
Proof.
  revert w. induction zs as [|pz_grid zs IH]; intros w; simpl; [apply explores_refl|].
  pose proof (check_cell_explores w x z px_grid pz_grid) as Hcell.
  destruct (check_cell cfg rt w x z px_grid pz_grid) as [hit w1]. simpl in Hcell.
  destruct hit; [done|]. eapply explores_trans; [exact Hcell|apply IH].
Qed.

Lemma scan_x_explores (w : World) x z xs zs :
  explores rt w (scan_x cfg rt w x z xs zs).2.
Proof.
  revert w. induction xs as [|px_grid xs IH]; intros w; simpl; [apply explores_refl|].
  pose proof (scan_z_explores w x z px_grid zs) as Hrow.
  destruct (scan_z cfg rt w x z px_grid zs) as [hit w1]. simpl in Hrow.
  destruct hit; [done|]. eapply explores_trans; [exact Hrow|apply IH].
Qed.

Lemma check_collision_explores (w : World) x z :
  explores rt w (check_collision cfg rt w x z).2.
Proof.
  unfold check_collision. destruct (_ || _); [apply explores_refl|].
  destruct (grid_bounds cfg x), (grid_bounds cfg z). apply scan_x_explores.
Qed.

End Exploration.

Section Stability.

Context (cfg : Config) (rt : Runtime).

(** Asked again in any later world, a wall query reads its cache entry. *)
Lemma has_wall_between_stable (w w' : World) x1 z1 x2 z2 :
  explores rt (has_wall_between cfg rt w x1 z1 x2 z2).2 w' →
  has_wall_between cfg rt w' x1 z1 x2 z2 = ((has_wall_between cfg rt w x1 z1 x2 z2).1, w').
Proof.
  intros [D _ _]. pose proof (has_wall_between_cached cfg rt w x1 z1 x2 z2) as Hc.
  eapply lookup_weaken in Hc; [|apply D].
  unfold has_wall_between at 1. by rewrite Hc.
Qed.

Lemma has_pillar_at_stable (w w' : World) px pz :
  explores rt (has_pillar_at cfg rt w px pz).2 w' →
  has_pillar_at cfg rt w' px pz = ((has_pillar_at cfg rt w px pz).1, w').
Proof.
  intros [D _ _]. pose proof (has_pillar_at_cached cfg rt w px pz) as Hc.
  eapply lookup_weaken in Hc; [|apply D].
  unfold has_pillar_at at 1. by rewrite Hc.
Qed.

Lemma check_wall_stable (w w' : World) x1 z1 x2 z2 along across wall_start wall_pos :
  explores rt (check_wall cfg rt w x1 z1 x2 z2 along across wall_start wall_pos).2 w' →
  check_wall cfg rt w' x1 z1 x2 z2 along across wall_start wall_pos
    = ((check_wall cfg rt w x1 z1 x2 z2 along across wall_start wall_pos).1, w').
Proof.
  rewrite check_wall_world. intros Hexp.
  pose proof (has_wall_between_stable w w' x1 z1 x2 z2 Hexp) as Hagain.
  pose proof (has_wall_between_cached cfg rt w x1 z1 x2 z2) as Hc.
  destruct Hexp as [D K _]. unfold check_wall. rewrite Hagain.
  destruct (has_wall_between cfg rt w x1 z1 x2 z2) as [b w1]. simpl in *.
  destruct b; [|done].
  assert (get_doorway_type rt w' x1 z1 x2 z2 = get_doorway_type rt w1 x1 z1 x2 z2) as ->.
  { unfold get_doorway_type. by rewrite (disc_seed _ _ D). }
  destruct (decide (sorted_pair (x1, z1) (x2, z2) ∈ destroyed_walls w1)) as [Hin|Hout].
  - rewrite !bool_decide_eq_true_2; [done|done|]. by apply (disc_destroyed _ _ D).
  - rewrite !bool_decide_eq_false_2; [by destruct (wall_blocks _ _ _ _ _ _)|done|].
    intros Hin. pose proof (K _ Hin Hout). congruence.
Qed.

Lemma check_cell_stable (w w' : World) x z px_grid pz_grid :
  explores rt (check_cell cfg rt w x z px_grid pz_grid).2 w' →
  check_cell cfg rt w' x z px_grid pz_grid
    = ((check_cell cfg rt w x z px_grid pz_grid).1, w').
Proof.
  unfold check_cell.
  match goal with |- context [check_wall cfg rt w ?a ?b ?c ?d ?e ?f ?g ?h] =>
    pose proof (check_wall_stable w w' a b c d e f g h) as S1;
    destruct (check_wall cfg rt w a b c d e f g h) as [flow1 w1] end.
  simpl in S1. destruct flow1; simpl; try (intros E; by rewrite (S1 E)).
  match goal with |- context [check_wall cfg rt w1 ?a ?b ?c ?d ?e ?f ?g ?h] =>
    pose proof (check_wall_stable w1 w' a b c d e f g h) as S2;
    pose proof (check_wall_explores cfg rt w1 a b c d e f g h) as E12;
    destruct (check_wall cfg rt w1 a b c d e f g h) as [flow2 w2] end.
  simpl in S2, E12.
  destruct flow2; simpl;
    try (intros E; rewrite (S1 (explores_trans rt _ _ _ E12 E)); by rewrite (S2 E)).
  match goal with |- context [has_pillar_at cfg rt w2 ?a ?b] =>
    pose proof (has_pillar_at_stable w2 w' a b) as S3;
    pose proof (has_pillar_at_explores cfg rt w2 a b) as E23;
    destruct (has_pillar_at cfg rt w2 a b) as [has_pillar w3] end.
  simpl in S3, E23.
  assert (explores rt w3 w' →
          check_wall cfg rt w' px_grid pz_grid (px_grid + Z.pos (PILLAR_SPACING cfg)) pz_grid
            x z px_grid pz_grid = (FallThrough, w') ∧
          check_wall cfg rt w' px_grid pz_grid px_grid (pz_grid + Z.pos (PILLAR_SPACING cfg))
            z x pz_grid px_grid = (FallThrough, w') ∧
          has_pillar_at cfg rt w' (px_grid + Z.pos (PILLAR_SPACING cfg) / 2)
            (pz_grid + Z.pos (PILLAR_SPACING cfg) / 2) = (has_pillar, w') ∧
          destroyed_pillars w' = destroyed_pillars w3) as Hall.
  { intros E. pose proof (explores_trans rt _ _ _ E23 E) as E2.
    pose proof (explores_trans rt _ _ _ E12 E2) as E1.
    repeat split; [by apply S1|by apply S2|by apply S3|].
    destruct E as [D _ _]. apply (disc_pillars _ _ D). }
  destruct (has_pillar && _) eqn:Hp; simpl; intros E;
    destruct (Hall E) as (-> & -> & -> & Hdp); rewrite Hdp, Hp; done.
Qed.

Lemma scan_z_stable (w w' : World) x z px_grid zs :
  explores rt (scan_z cfg rt w x z px_grid zs).2 w' →
  scan_z cfg rt w' x z px_grid zs = ((scan_z cfg rt w x z px_grid zs).1, w').
Proof.
  revert w. induction zs as [|pz_grid zs IH]; intros w; simpl; [done|].
  pose proof (check_cell_stable w w' x z px_grid pz_grid) as Sc.
  destruct (check_cell cfg rt w x z px_grid pz_grid) as [hit w1]. simpl in Sc.
  destruct hit; simpl.
  - intros E. by rewrite (Sc E).
  - intros E. pose proof (scan_z_explores cfg rt w1 x z px_grid zs) as E1.
    rewrite (Sc (explores_trans rt _ _ _ E1 E)). by apply IH.
Qed.

Lemma scan_x_stable (w w' : World) x z xs zs :
  explores rt (scan_x cfg rt w x z xs zs).2 w' →
  scan_x cfg rt w' x z xs zs = ((scan_x cfg rt w x z xs zs).1, w').
Proof.
  revert w. induction xs as [|px_grid xs IH]; intros w; simpl; [done|].
  pose proof (scan_z_stable w w' x z px_grid zs) as Sz.
  destruct (scan_z cfg rt w x z px_grid zs) as [hit w1]. simpl in Sz.
  destruct hit; simpl.
  - intros E. by rewrite (Sz E).
  - intros E. pose proof (scan_x_explores cfg rt w1 x z xs zs) as E1.
    rewrite (Sz (explores_trans rt _ _ _ E1 E)). by apply IH.
Qed.

Lemma check_collision_stable (w w' : World) x z :
  explores rt (check_collision cfg rt w x z).2 w' →
  check_collision cfg rt w' x z = ((check_collision cfg rt w x z).1, w').
Proof.
  unfold check_collision. destruct (_ || _); [done|].
  destruct (grid_bounds cfg x), (grid_bounds cfg z). apply scan_x_stable.
Qed.

Lemma after_queries_explores (w : World) positions :
  explores rt w (after_queries cfg rt w positions).
Proof.
  revert w. induction positions as [|p ps IH]; intros w; simpl; [apply explores_refl|].
  eapply explores_trans; [apply check_collision_explores|apply IH].
Qed.

End Stability.

(** Once the collision query has answered for a position, it gives that
    answer again and changes nothing, immediately or after any number of
    further collision queries at other positions: what a first query
    decided by a roll (cache entries, pre-damage, pre-destroyed walls) is
    never rolled again. *)
Theorem collision_answers_are_final (cfg : Config) (rt : Runtime)
    (w : World) (x z : float) (later : list (float * float)) :
  let first := check_collision cfg rt w x z in
  let w' := after_queries cfg rt first.2 later in
  check_collision cfg rt w' x z = (first.1, w').
Proof.
  intros first w'. apply check_collision_stable. apply after_queries_explores.
Qed.

(** A zone cache that agrees with the zone generator for the seed of the
    world (as in a new world and after a load that returned) still does
    after a wall query and after a collision query. *)
Theorem zone_cache_stays_coherent (cfg : Config) (rt : Runtime)
    (w : World) (x z : float) (x1 z1 x2 z2 : Z) :
  zone_cache_coherent rt w →
  zone_cache_coherent rt (has_wall_between cfg rt w x1 z1 x2 z2).2 ∧
  zone_cache_coherent rt (check_collision cfg rt w x z).2.
Proof.
  intros Hcoh.
  assert (∀ w', explores rt w w' → zone_cache_coherent rt w') as Hkeep.
  { intros w' [D _ Z] zone props Hsome. rewrite (disc_seed _ _ D).
    destruct (zone_cache w !! zone) as [p0|] eqn:E; [|by apply Z].
    pose proof (Hcoh zone p0 E) as <-.
    eapply lookup_weaken in E; [|apply D]. congruence. }
  split; apply Hkeep; [apply has_wall_between_explores|apply check_collision_explores].
Qed.

Lemma zone_cache_stays_coherent_witness :
  zone_cache_coherent (Fixture.rt 0.5)
    (check_collision Fixture.cfg (Fixture.rt 0.5) (new_World 7) 200 200).2.
Proof.
  apply (zone_cache_stays_coherent Fixture.cfg (Fixture.rt 0.5) (new_World 7) 200 200 0 0 0 0).
  intros zone props Hsome. simpl in Hsome. by rewrite lookup_empty in Hsome.
Defined.

(** The [continue] of the horizontal wall: when the horizontal wall of a
    cell is destroyed (and not cached as absent), the cell is done with:
    it is not solid, and neither its vertical wall nor its pillar is looked
    at, so the world is the one the wall query left. *)
Theorem destroyed_horizontal_wall_skips_cell (cfg : Config) (rt : Runtime)
    (w : World) (x z : float) (px_grid pz_grid : Z) :
  let x2 := px_grid + Z.pos (PILLAR_SPACING cfg) in
  let key := sorted_pair (px_grid, pz_grid) (x2, pz_grid) in
  key ∈ destroyed_walls w → wall_cache w !! key ≠ Some false →
  check_cell cfg rt w x z px_grid pz_grid
    = (false, (has_wall_between cfg rt w px_grid pz_grid x2 pz_grid).2).
Proof.
  intros x2 key Hin Hcache. unfold check_cell, check_wall. fold x2.
  pose proof (has_wall_between_discovers cfg rt w px_grid pz_grid x2 pz_grid) as D.
  assert ((has_wall_between cfg rt w px_grid pz_grid x2 pz_grid).1 = true) as Hwall.
  { unfold has_wall_between. fold key.
    destruct (wall_cache w !! key) as [[]|]; simpl; try done.
    by rewrite Z.eqb_refl. }
  destruct (has_wall_between cfg rt w px_grid pz_grid x2 pz_grid) as [b w1].
  simpl in *. subst b. fold key.
  rewrite bool_decide_eq_true_2; [done|]. by apply (disc_destroyed _ _ D).
Qed.

Lemma destroyed_horizontal_wall_skips_cell_witness :
  let w := set_destroyed_walls {[Fixture.wall]} (new_World 7) in
  ∃ w', check_cell Fixture.cfg (Fixture.rt 0.9) w 0 200 0 0 = (false, w') ∧
        wall_cache w' !! ((0, 0), (0, 400)) = None ∧
        wall_blocks Fixture.cfg 0 0 0 200 0 = true.
Proof.
  intros w. eexists. split; [|split].
  - apply (destroyed_horizontal_wall_skips_cell Fixture.cfg (Fixture.rt 0.9) w 0 200 0 0).
    + change (Fixture.wall ∈ ({[Fixture.wall]} : gset WallKey)).
      apply elem_of_singleton_2. reflexivity.
    + discriminate.
  - reflexivity.
  - reflexivity.
Defined.
